(** * Nervous-system hierarchy: component tree and signal processing

    A shallow embedding of [v1_builder.py] (classes [NeuralSignal],
    [NervousSystemComponent], [BasicNervousSystemComponent], [BrainRegion],
    [CorticalArea], [NervousSystemBuilder]), of [find_component] from the
    two demo scripts and of [print_hierarchy] from [demo-hierarchy.py].

    Python objects are mutable and shared by reference, so both components
    and signals live in an explicit heap and are named by their index.
    Methods become computations in a state-and-failure monad over that heap.
    Recursive methods take a fuel argument that bounds the recursion depth. *)

From Stdlib Require Import ZArith QArith Floats Lia Lqa.
From stdpp Require Import base option relations list list_numbers strings.

Set Warnings "-inexact-float,-register-all".
Local Open Scope nat_scope.

(** ** Arithmetic on signal strengths

    The source computes with Python floats.  The operations it uses are
    collected in one interface with two instances: [binary64], IEEE 754
    double precision as CPython implements [float], and [exact], rational
    arithmetic, in which the decimal factors of the source compose exactly. *)

Class Arith (F : Type) := {
  fmul : F → F → F;
  fadd : F → F → F;
  fltb : F → F → bool;
  lit_0_0 : F;
  lit_0_1 : F;
  lit_0_8 : F;
  lit_0_9 : F;
  lit_1_0 : F;
  lit_1_2 : F
}.

#[export] Instance binary64 : Arith float := {|
  fmul := PrimFloat.mul;
  fadd := PrimFloat.add;
  fltb := PrimFloat.ltb;
  lit_0_0 := 0.0%float;
  lit_0_1 := 0.1%float;
  lit_0_8 := 0.8%float;
  lit_0_9 := 0.9%float;
  lit_1_0 := 1.0%float;
  lit_1_2 := 1.2%float
|}.

Definition Qltb (x y : Q) : bool :=
  match (x ?= y)%Q with Lt => true | _ => false end.

#[export] Instance exact : Arith Q := {|
  fmul := Qmult;
  fadd := Qplus;
  fltb := Qltb;
  lit_0_0 := 0%Q;
  lit_0_1 := 0.1%Q;
  lit_0_8 := 0.8%Q;
  lit_0_9 := 0.9%Q;
  lit_1_0 := 1%Q;
  lit_1_2 := 1.2%Q
|}.

(** Python's builtin [min(a, b)] keeps its first argument unless the second
    one compares strictly less. *)
Definition py_min {F} `{Arith F} (a b : F) : F :=
  if fltb b a then b else a.

(** ** Heap objects *)

Abbreviation ref := nat (only parsing).   (* a component object *)
Abbreviation sref := nat (only parsing).  (* a signal object *)

(** The [data] attribute of a signal is untyped ([Any], default [None]).
    Strings are what the source itself stores; anything else is opaque. *)
Inductive PyData :=
| PyNone
| PyStr (s : string)
| PyOpaque (tag : nat).

Section Model.
Context {F : Type} `{Arith F}.

Record NeuralSignal := {
  signal_type : string;
  strength : F;
  data : PyData
}.

(** The three concrete classes, with the attributes each one adds. *)
Inductive Variant :=
| BasicNervousSystemComponent
| BrainRegion (function : string) (activity_level : F)
| CorticalArea (function : string) (activity_level : F)
               (area_type : string) (layers : Z).

Record Component := {
  name : string;
  parent : option ref;
  children : list ref;
  connections : list ref;
  active : bool;
  variant : Variant
}.

Record Heap := {
  nodes : list Component;
  signals : list NeuralSignal
}.

Definition empty_heap : Heap := {| nodes := []; signals := [] |}.

(** Attribute access on the variant part. [None] is Python's
    [AttributeError]. *)
Definition function (c : Component) : option string :=
  match variant c with
  | BasicNervousSystemComponent => None
  | BrainRegion f _ => Some f
  | CorticalArea f _ _ _ => Some f
  end.

Definition activity_level (c : Component) : option F :=
  match variant c with
  | BasicNervousSystemComponent => None
  | BrainRegion _ a => Some a
  | CorticalArea _ a _ _ => Some a
  end.

Definition area_type (c : Component) : option string :=
  match variant c with
  | CorticalArea _ _ t _ => Some t
  | _ => None
  end.

Definition layers (c : Component) : option Z :=
  match variant c with
  | CorticalArea _ _ _ l => Some l
  | _ => None
  end.

Definition is_region (c : Component) : bool :=
  match variant c with
  | BasicNervousSystemComponent => false
  | _ => true
  end.

Definition with_activity_level (a : F) (c : Component) : Component :=
  {| name := name c; parent := parent c; children := children c;
     connections := connections c; active := active c;
     variant := match variant c with
                | BasicNervousSystemComponent => BasicNervousSystemComponent
                | BrainRegion f _ => BrainRegion f a
                | CorticalArea f _ t l => CorticalArea f a t l
                end |}.

Definition with_parent (p : option ref) (c : Component) : Component :=
  {| name := name c; parent := p; children := children c;
     connections := connections c; active := active c;
     variant := variant c |}.

Definition with_children (cs : list ref) (c : Component) : Component :=
  {| name := name c; parent := parent c; children := cs;
     connections := connections c; active := active c;
     variant := variant c |}.

Definition with_connections (cs : list ref) (c : Component) : Component :=
  {| name := name c; parent := parent c; children := children c;
     connections := cs; active := active c;
     variant := variant c |}.

Definition with_strength (s : F) (g : NeuralSignal) : NeuralSignal :=
  {| signal_type := signal_type g; strength := s; data := data g |}.

(** ** The heap monad *)

Definition M (A : Type) : Type := Heap → option (A * Heap).

Definition ret {A} (a : A) : M A := λ h, Some (a, h).

Definition bind {A B} (m : M A) (k : A → M B) : M B :=
  λ h, match m h with
       | Some (a, h') => k a h'
       | None => None
       end.

Definition fail {A} : M A := λ _, None.

Definition lift_option {A} (o : option A) : M A :=
  match o with Some a => ret a | None => fail end.

End Model.

Arguments NeuralSignal F : clear implicits.
Arguments Variant F : clear implicits.
Arguments Component F : clear implicits.
Arguments Heap F : clear implicits.
Arguments M F A : clear implicits.

Notation "'do' x <- c ; k" := (bind c (λ x, k))
  (at level 10, x name, c at level 100, k at level 200, only parsing).
Notation "'run' c ; k" := (bind c (λ _, k))
  (at level 10, c at level 100, k at level 200, only parsing).

Section Operations.
Context {F : Type} `{Arith F}.

Definition get_node (r : ref) : M F (Component F) :=
  λ h, match nodes h !! r with
       | Some c => Some (c, h)
       | None => None
       end.

Definition get_signal (r : sref) : M F (NeuralSignal F) :=
  λ h, match signals h !! r with
       | Some g => Some (g, h)
       | None => None
       end.

(** In-place update of an existing object; a dangling reference fails. *)
Definition update_node (r : ref) (f : Component F → Component F) : M F unit :=
  λ h, match nodes h !! r with
       | Some c => Some (tt, {| nodes := <[r := f c]> (nodes h);
                                signals := signals h |})
       | None => None
       end.

Definition update_signal (r : sref) (f : NeuralSignal F → NeuralSignal F)
  : M F unit :=
  λ h, match signals h !! r with
       | Some g => Some (tt, {| nodes := nodes h;
                                signals := <[r := f g]> (signals h) |})
       | None => None
       end.

Definition alloc_node (c : Component F) : M F ref :=
  λ h, Some (length (nodes h),
             {| nodes := nodes h ++ [c]; signals := signals h |}).

Definition alloc_signal (g : NeuralSignal F) : M F sref :=
  λ h, Some (length (signals h),
             {| nodes := nodes h; signals := signals h ++ [g] |}).

(** Sequential [for] loop that collects what each iteration yields. *)
Fixpoint for_each {A B} (xs : list A) (body : A → M F (list B))
  : M F (list B) :=
  match xs with
  | [] => ret []
  | x :: xs' =>
      do ys <- body x;
      do zs <- for_each xs' body;
      ret (ys ++ zs)
  end.

(** *** Constructors *)

(** [NeuralSignal.__init__] *)
Definition new_NeuralSignal (signal_type : string) (strength : F)
  (data : PyData) : M F sref :=
  alloc_signal {| signal_type := signal_type; strength := strength;
                  data := data |}.

(** [NervousSystemComponent.__init__], reached through each subclass. *)
Definition new_component (name : string) (parent : option ref)
  (v : Variant F) : M F ref :=
  alloc_node {| name := name; parent := parent; children := [];
                connections := []; active := true; variant := v |}.

Definition new_BasicNervousSystemComponent (name : string)
  (parent : option ref) : M F ref :=
  new_component name parent BasicNervousSystemComponent.

(** [BrainRegion.__init__]: [activity_level] starts at [0.0]. *)
Definition new_BrainRegion (name function : string) (parent : option ref)
  : M F ref :=
  new_component name parent (BrainRegion function lit_0_0).

(** [CorticalArea.__init__]: [layers] is always [6]. *)
Definition new_CorticalArea (name function area_type : string)
  (parent : option ref) : M F ref :=
  new_component name parent (CorticalArea function lit_0_0 area_type 6%Z).

(** *** [NervousSystemComponent] methods *)

(** [add_child]: first [child.parent = self], then
    [self.children.append(child)]. *)
Definition add_child (self child : ref) : M F unit :=
  run update_node child (with_parent (Some self));
  update_node self (λ c, with_children (children c ++ [child]) c).

(** [add_connection]: [self.connections.append(target)]. *)
Definition add_connection (self target : ref) : M F unit :=
  update_node self (λ c, with_connections (connections c ++ [target]) c).

(** [get_path]: the parent's path, a slash, the own name; or the own name
    alone when [parent] is [None]. *)
Fixpoint get_path (fuel : nat) (self : ref) : M F string :=
  match fuel with
  | 0 => fail
  | S fuel' =>
      do c <- get_node self;
      match parent c with
      | Some p =>
          do pp <- get_path fuel' p;
          ret (pp +:+ "/" +:+ name c)
      | None => ret (name c)
      end
  end.

(** *** [process_signal], one definition per class *)

(** [BasicNervousSystemComponent.process_signal].  A [NeuralSignal] always
    has the three attributes, so every [hasattr] test succeeds and
    [type(signal)(...)] builds a new [NeuralSignal]. *)
Definition BasicNervousSystemComponent_process_signal
  (self : ref) (signal : sref) : M F (list sref) :=
  do g <- get_signal signal;
  do output_signal <-
    new_NeuralSignal (signal_type g) (fmul (strength g) lit_0_9) (data g);
  ret [output_signal].

(** [BrainRegion.process_signal]. *)
Definition BrainRegion_process_signal (self : ref) (signal : sref)
  : M F (list sref) :=
  do c <- get_node self;
  do g <- get_signal signal;
  do a <- lift_option (activity_level c);
  run update_node self
        (with_activity_level
           (py_min lit_1_0 (fadd a (fmul (strength g) lit_0_1))));
  do f <- lift_option (function c);
  do output_signal <-
    new_NeuralSignal (f +:+ "_processed") (fmul (strength g) lit_0_8)
                     (PyStr ("Processed by " +:+ name c));
  ret [output_signal].

(** [processed_signals[0].strength *= k] *)
Definition scale_first (processed_signals : list sref) (k : F) : M F unit :=
  do o <- lift_option (processed_signals !! 0);
  update_signal o (λ g, with_strength (fmul (strength g) k) g).

(** [CorticalArea.process_signal]: the [BrainRegion] method through
    [super()], then the adjustment by area type. *)
Definition CorticalArea_process_signal (self : ref) (signal : sref)
  : M F (list sref) :=
  do processed_signals <- BrainRegion_process_signal self signal;
  do c <- get_node self;
  do t <- lift_option (area_type c);
  do g <- get_signal signal;
  run (if String.eqb t "motor" && String.eqb (signal_type g) "motor_command"
       then scale_first processed_signals lit_1_2
       else if String.eqb t "sensory"
       then scale_first processed_signals lit_0_9
       else ret tt);
  ret processed_signals.

(** Dynamic dispatch on the class of [self]. *)
Definition process_signal (self : ref) (signal : sref) : M F (list sref) :=
  do c <- get_node self;
  match variant c with
  | BasicNervousSystemComponent =>
      BasicNervousSystemComponent_process_signal self signal
  | BrainRegion _ _ => BrainRegion_process_signal self signal
  | CorticalArea _ _ _ _ => CorticalArea_process_signal self signal
  end.

(** *** [send_signal]

    The method returns nothing.  To state which calls it makes, the model
    returns the tree of [process_signal] invocations it performed: the
    target, the signal handed to it, the signals it gave back, and the calls
    made while propagating those from the target. *)

Inductive Call :=
| MkCall (target : ref) (input : sref) (outputs : list sref)
         (nested : list Call).

Definition call_target (c : Call) : ref :=
  match c with MkCall t _ _ _ => t end.
Definition call_input (c : Call) : sref :=
  match c with MkCall _ i _ _ => i end.
Definition call_outputs (c : Call) : list sref :=
  match c with MkCall _ _ o _ => o end.
Definition call_nested (c : Call) : list Call :=
  match c with MkCall _ _ _ n => n end.

Fixpoint send_signal (fuel : nat) (self : ref) (signal : sref)
  : M F (list Call) :=
  match fuel with
  | 0 => fail
  | S fuel' =>
      do c <- get_node self;
      for_each (connections c) (λ connection,
        do t <- get_node connection;
        if active t then
          do output_signals <- process_signal connection signal;
          do nested <- for_each output_signals (λ output_signal,
                         send_signal fuel' connection output_signal);
          ret [MkCall connection signal output_signals nested]
        else ret [])
  end.

(** *** [find_component] (both demo scripts)

    Pre-order search; the loop over the children returns the first result
    that is not [None]. *)
Fixpoint find_component (fuel : nat) (root : ref) (nm : string)
  : M F (option ref) :=
  match fuel with
  | 0 => fail
  | S fuel' =>
      do c <- get_node root;
      if String.eqb (name c) nm then ret (Some root)
      else
        (fix loop (cs : list ref) : M F (option ref) :=
           match cs with
           | [] => ret None
           | child :: cs' =>
               do result <- find_component fuel' child nm;
               match result with
               | Some r => ret (Some r)
               | None => loop cs'
               end
           end) (children c)
  end.

(** The same search, also reporting the objects whose name it compared,
    in the order of the comparisons. *)
Fixpoint find_component_trace (fuel : nat) (root : ref) (nm : string)
  : M F (option ref * list ref) :=
  match fuel with
  | 0 => fail
  | S fuel' =>
      do c <- get_node root;
      if String.eqb (name c) nm then ret (Some root, [root])
      else
        do found <-
          (fix loop (cs : list ref) : M F (option ref * list ref) :=
             match cs with
             | [] => ret (None, [])
             | child :: cs' =>
                 do result <- find_component_trace fuel' child nm;
                 match fst result with
                 | Some r => ret (Some r, snd result)
                 | None =>
                     do later <- loop cs';
                     ret (fst later, snd result ++ snd later)
                 end
             end) (children c);
        ret (fst found, root :: snd found)
  end.

End Operations.

(** ** [NervousSystemBuilder]

    Each [_build_*] method allocates its subtree in the heap and returns the
    subtree's root.  Constructor calls that pass a [parent] argument set the
    back-reference at once; the [add_child] that follows sets it again. *)

Section Builder.
Context {F : Type} `{Arith F}.

Definition _build_cerebrum : M F ref :=
  do cerebrum <- new_BasicNervousSystemComponent "Cerebrum" None;
  (* Cerebral Cortex *)
  do cortex <- new_BasicNervousSystemComponent "CerebralCortex" None;
  (* Frontal Lobe *)
  do frontal <- new_BasicNervousSystemComponent "FrontalLobe" None;
  do motor_cortex <-
    new_CorticalArea "PrimaryMotorCortex" "motor_control" "motor"
                     (Some frontal);
  do prefrontal <-
    new_CorticalArea "PrefrontalCortex" "executive_function" "association"
                     (Some frontal);
  do brocas <-
    new_CorticalArea "BrocasArea" "speech_production" "association"
                     (Some frontal);
  run add_child frontal motor_cortex;
  run add_child frontal prefrontal;
  run add_child frontal brocas;
  run add_child cortex frontal;
  (* Parietal Lobe *)
  do parietal <- new_BasicNervousSystemComponent "ParietalLobe" None;
  do somatosensory <-
    new_CorticalArea "PrimarySomatosensoryCortex" "touch_processing"
                     "sensory" (Some parietal);
  do posterior_parietal <-
    new_CorticalArea "PosteriorParietalCortex" "spatial_processing"
                     "association" (Some parietal);
  run add_child parietal somatosensory;
  run add_child parietal posterior_parietal;
  run add_child cortex parietal;
  (* Temporal Lobe *)
  do temporal <- new_BasicNervousSystemComponent "TemporalLobe" None;
  do auditory <-
    new_CorticalArea "PrimaryAuditoryCortex" "hearing" "sensory"
                     (Some temporal);
  do wernickes <-
    new_CorticalArea "WernickesArea" "language_comprehension" "association"
                     (Some temporal);
  do hippocampus <-
    new_BrainRegion "Hippocampus" "memory_formation" (Some temporal);
  run add_child temporal auditory;
  run add_child temporal wernickes;
  run add_child temporal hippocampus;
  run add_child cortex temporal;
  (* Occipital Lobe *)
  do occipital <- new_BasicNervousSystemComponent "OccipitalLobe" None;
  do visual <-
    new_CorticalArea "PrimaryVisualCortex" "vision" "sensory"
                     (Some occipital);
  do visual_assoc <-
    new_CorticalArea "VisualAssociationAreas" "visual_processing"
                     "association" (Some occipital);
  run add_child occipital visual;
  run add_child occipital visual_assoc;
  run add_child cortex occipital;
  run add_child cerebrum cortex;
  (* White Matter *)
  do white_matter <- new_BasicNervousSystemComponent "WhiteMatter" None;
  do corpus_callosum <-
    new_BrainRegion "CorpusCallosum" "interhemispheric_communication"
                    (Some white_matter);
  do internal_capsule <-
    new_BrainRegion "InternalCapsule" "projection_fibers"
                    (Some white_matter);
  run add_child white_matter corpus_callosum;
  run add_child white_matter internal_capsule;
  run add_child cerebrum white_matter;
  ret cerebrum.

Definition _build_brainstem : M F ref :=
  do brainstem <- new_BasicNervousSystemComponent "Brainstem" None;
  (* Medulla *)
  do medulla <- new_BrainRegion "Medulla" "vital_functions" None;
  do respiratory <-
    new_BrainRegion "RespiratoryCenter" "breathing_control" (Some medulla);
  do cardiac <-
    new_BrainRegion "CardiacCenter" "heart_rate_control" (Some medulla);
  run add_child medulla respiratory;
  run add_child medulla cardiac;
  run add_child brainstem medulla;
  (* Pons *)
  do pons <- new_BrainRegion "Pons" "relay_sleep" None;
  do pontine_nuclei <-
    new_BrainRegion "PontineNuclei" "motor_relay" (Some pons);
  do sleep_centers <-
    new_BrainRegion "SleepWakeCenters" "sleep_regulation" (Some pons);
  run add_child pons pontine_nuclei;
  run add_child pons sleep_centers;
  run add_child brainstem pons;
  (* Midbrain *)
  do midbrain <- new_BrainRegion "Midbrain" "reflexes_reward" None;
  do superior_coll <-
    new_BrainRegion "SuperiorColliculus" "visual_reflexes" (Some midbrain);
  do substantia_nigra <-
    new_BrainRegion "SubstantiaNigra" "dopamine_production" (Some midbrain);
  run add_child midbrain superior_coll;
  run add_child midbrain substantia_nigra;
  run add_child brainstem midbrain;
  ret brainstem.

Definition _build_diencephalon : M F ref :=
  do diencephalon <- new_BasicNervousSystemComponent "Diencephalon" None;
  (* Thalamus *)
  do thalamus <- new_BrainRegion "Thalamus" "sensory_relay" None;
  do sensory_relay <-
    new_BrainRegion "SensoryRelayNuclei" "sensory_processing"
                    (Some thalamus);
  do motor_relay <-
    new_BrainRegion "MotorRelayNuclei" "motor_processing" (Some thalamus);
  run add_child thalamus sensory_relay;
  run add_child thalamus motor_relay;
  run add_child diencephalon thalamus;
  (* Hypothalamus *)
  do hypothalamus <- new_BrainRegion "Hypothalamus" "homeostasis" None;
  do paraventricular <-
    new_BrainRegion "ParaventricularNucleus" "hormone_regulation"
                    (Some hypothalamus);
  do suprachiasmatic <-
    new_BrainRegion "SuprachiasmaticNucleus" "circadian_rhythm"
                    (Some hypothalamus);
  run add_child hypothalamus paraventricular;
  run add_child hypothalamus suprachiasmatic;
  run add_child diencephalon hypothalamus;
  ret diencephalon.

Definition _build_limbic_system : M F ref :=
  do limbic <- new_BasicNervousSystemComponent "LimbicSystem" None;
  (* Hippocampus (more detailed) *)
  do hippocampus <- new_BrainRegion "Hippocampus" "memory_formation" None;
  do dentate_gyrus <-
    new_BrainRegion "DentateGyrus" "pattern_separation" (Some hippocampus);
  do ca1 <- new_BrainRegion "CA1_Field" "memory_output" (Some hippocampus);
  do ca3 <-
    new_BrainRegion "CA3_Field" "pattern_completion" (Some hippocampus);
  run add_child hippocampus dentate_gyrus;
  run add_child hippocampus ca1;
  run add_child hippocampus ca3;
  run add_child limbic hippocampus;
  (* Amygdala *)
  do amygdala <- new_BrainRegion "Amygdala" "fear_emotion" None;
  do central_nucleus <-
    new_BrainRegion "CentralNucleus" "fear_response" (Some amygdala);
  do basolateral <-
    new_BrainRegion "BasolateralComplex" "fear_learning" (Some amygdala);
  run add_child amygdala central_nucleus;
  run add_child amygdala basolateral;
  run add_child limbic amygdala;
  ret limbic.

Definition _build_brain : M F ref :=
  do brain <- new_BasicNervousSystemComponent "Brain" None;
  (* Cerebrum *)
  do cerebrum <- _build_cerebrum;
  run add_child brain cerebrum;
  (* Cerebellum *)
  do cerebellum <- new_BrainRegion "Cerebellum" "motor_coordination" None;
  do purkinje_layer <-
    new_BrainRegion "PurkinjeLayer" "integration" (Some cerebellum);
  do granule_layer <-
    new_BrainRegion "GranuleLayer" "input_processing" (Some cerebellum);
  do molecular_layer <-
    new_BrainRegion "MolecularLayer" "output_processing" (Some cerebellum);
  run add_child cerebellum purkinje_layer;
  run add_child cerebellum granule_layer;
  run add_child cerebellum molecular_layer;
  run add_child brain cerebellum;
  (* Brainstem *)
  do brainstem <- _build_brainstem;
  run add_child brain brainstem;
  (* Diencephalon *)
  do diencephalon <- _build_diencephalon;
  run add_child brain diencephalon;
  (* Limbic System *)
  do limbic <- _build_limbic_system;
  run add_child brain limbic;
  ret brain.

(** A [for] loop that builds one region per name and attaches it. *)
Fixpoint add_regions (owner : ref) (function : string)
  (names : list string) : M F unit :=
  match names with
  | [] => ret tt
  | region_name :: rest =>
      do region <- new_BrainRegion region_name function None;
      run add_child owner region;
      add_regions owner function rest
  end.

Definition _build_spinal_cord : M F ref :=
  do spinal_cord <- new_BasicNervousSystemComponent "SpinalCord" None;
  let regions :=
    ["CervicalRegion"; "ThoracicRegion"; "LumbarRegion"; "SacralRegion"] in
  run add_regions spinal_cord "spinal_processing" regions;
  ret spinal_cord.

Definition _build_somatic_system : M F ref :=
  do somatic <- new_BasicNervousSystemComponent "SomaticNervousSystem" None;
  (* Cranial nerves *)
  do cranial <- new_BasicNervousSystemComponent "CranialNerves" None;
  let cranial_names :=
    ["Olfactory_I"; "Optic_II"; "Oculomotor_III"; "Trigeminal_V";
     "Facial_VII"; "Vestibulocochlear_VIII"; "Vagus_X"] in
  run add_regions cranial "peripheral_relay" cranial_names;
  run add_child somatic cranial;
  ret somatic.

Definition _build_autonomic_system : M F ref :=
  do autonomic <-
    new_BasicNervousSystemComponent "AutonomicNervousSystem" None;
  (* Sympathetic *)
  do sympathetic <-
    new_BrainRegion "SympatheticNervousSystem" "fight_flight" None;
  run add_child autonomic sympathetic;
  (* Parasympathetic *)
  do parasympathetic <-
    new_BrainRegion "ParasympatheticNervousSystem" "rest_digest" None;
  run add_child autonomic parasympathetic;
  ret autonomic.

Definition build_complete_system : M F ref :=
  (* Root system *)
  do root <- new_BasicNervousSystemComponent "NervousSystem" None;
  (* Central Nervous System *)
  do cns <- new_BasicNervousSystemComponent "CentralNervousSystem" None;
  run add_child root cns;
  (* Build Brain *)
  do brain <- _build_brain;
  run add_child cns brain;
  (* Build Spinal Cord *)
  do spinal_cord <- _build_spinal_cord;
  run add_child cns spinal_cord;
  (* Peripheral Nervous System *)
  do pns <- new_BasicNervousSystemComponent "PeripheralNervousSystem" None;
  run add_child root pns;
  (* Build PNS components *)
  do somatic <- _build_somatic_system;
  do autonomic <- _build_autonomic_system;
  run add_child pns somatic;
  run add_child pns autonomic;
  ret root.

(** [demo-signal-processing.py]: build, look up the motor cortex, print its
    path, create the signal, process it.  The script uses the result of the
    search unchecked, so a failed search is an error. *)
Definition demo_signal_processing (fuel : nat)
  : M F (ref * string * list sref) :=
  do nervous_system <- build_complete_system;
  do found <- find_component fuel nervous_system "PrimaryMotorCortex";
  do motor_cortex <- lift_option found;
  do path <- get_path fuel motor_cortex;
  do signal <-
    new_NeuralSignal "motor_command" lit_0_8 (PyStr "move_right_hand");
  do output_signals <- process_signal motor_cortex signal;
  ret (motor_cortex, path, output_signals).

End Builder.


(** ** Closed forms used in the statements *)

Section ClosedForms.
Context {F : Type} `{Arith F}.

(** The strength adjustment of [CorticalArea.process_signal] as a function
    of the area type and of the kind of the input. *)
Definition cortical_adjust (t kind : string) (s : F) : F :=
  if String.eqb t "motor" && String.eqb kind "motor_command"
  then fmul s lit_1_2
  else if String.eqb t "sensory" then fmul s lit_0_9
  else s.

(** The signal object one [process_signal] call creates, by class. *)
Definition output_signal (c : Component F) (g : NeuralSignal F)
  : NeuralSignal F :=
  match variant c with
  | BasicNervousSystemComponent =>
      {| signal_type := signal_type g;
         strength := fmul (strength g) lit_0_9;
         data := data g |}
  | BrainRegion f _ =>
      {| signal_type := f +:+ "_processed";
         strength := fmul (strength g) lit_0_8;
         data := PyStr ("Processed by " +:+ name c) |}
  | CorticalArea f _ t _ =>
      {| signal_type := f +:+ "_processed";
         strength := cortical_adjust t (signal_type g)
                       (fmul (strength g) lit_0_8);
         data := PyStr ("Processed by " +:+ name c) |}
  end.

(** The receiving object after the call. *)
Definition node_after (c : Component F) (g : NeuralSignal F) : Component F :=
  match activity_level c with
  | Some a =>
      with_activity_level
        (py_min lit_1_0 (fadd a (fmul (strength g) lit_0_1))) c
  | None => c
  end.

(** The successive activity levels when the inputs are processed in order,
    starting from level [a]. *)
Fixpoint activity_scan (a : F) (inputs : list (NeuralSignal F)) : list F :=
  match inputs with
  | [] => [a]
  | g :: rest =>
      a :: activity_scan
             (py_min lit_1_0 (fadd a (fmul (strength g) lit_0_1))) rest
  end.

End ClosedForms.

(** ** Small heaps for concrete runs *)

Section Examples.
Context {F : Type} `{Arith F}.

Definition heap_after {A} (m : M F A) : Heap F :=
  match m empty_heap with
  | Some (_, h) => h
  | None => empty_heap
  end.

(** Objects 0 to 3: a plain component, a region, a motor and a sensory
    cortical area.  Signal 0 is the one of the demo scripts. *)
Definition example_heap : Heap F :=
  heap_after
    (run new_BasicNervousSystemComponent "Brain" None;
     run new_BrainRegion "Cerebellum" "motor_coordination" None;
     run new_CorticalArea "PrimaryMotorCortex" "motor_control" "motor" None;
     run new_CorticalArea "PrimaryAuditoryCortex" "hearing" "sensory" None;
     new_NeuralSignal "motor_command" lit_0_8 (PyStr "move_right_hand")).

(** The example heap with connections 3 to 2, 3 to 1, 2 to 1 and 1 to 0. *)
Definition wired_heap : Heap F :=
  match (run add_connection 3 2;
         run add_connection 3 1;
         run add_connection 2 1;
         add_connection 1 0) example_heap with
  | Some (_, h) => h
  | None => example_heap
  end.

(** One plain component connected to itself, and one signal. *)
Definition loop_heap : Heap F :=
  heap_after
    (do n <- new_BasicNervousSystemComponent "Brain" None;
     run add_connection n n;
     new_NeuralSignal "motor_command" lit_0_8 PyNone).

(** The heap and the root that [build_complete_system] returns. *)
Definition built_heap : Heap F := heap_after build_complete_system.

Definition built_root : ref :=
  match build_complete_system empty_heap with
  | Some (root, _) => root
  | None => 0
  end.

End Examples.

(** ** Repeated calls on one object *)

Section Driver.
Context {F : Type} `{Arith F}.

(** A caller that builds each signal and hands it to [process_signal] on the
    same object, the way the demo scripts do for one signal.  It reads
    [activity_level] before the first call and after every call. *)
Fixpoint activity_levels (self : ref) (inputs : list (NeuralSignal F))
  : M F (list F) :=
  do c <- get_node self;
  do a <- lift_option (activity_level c);
  match inputs with
  | [] => ret [a]
  | g :: rest =>
      do signal <- new_NeuralSignal (signal_type g) (strength g) (data g);
      run process_signal self signal;
      do later <- activity_levels self rest;
      ret (a :: later)
  end.

End Driver.

(** Each value is at most the next one. *)
Definition nondecreasing {A} (le : A → A → Prop) (l : list A) : Prop :=
  ∀ i a b, l !! i = Some a → l !! S i = Some b → le a b.

(** The order of binary64 values as [<=] of Python computes it. *)
Definition float_le (a b : float) : Prop := PrimFloat.leb a b = true.

(** ** The two graphs over the heap *)

Section Graphs.
Context {F : Type}.

(** [p] is the [parent] attribute of [n]. *)
Definition parent_of (h : Heap F) (n p : ref) : Prop :=
  ∃ c, nodes h !! n = Some c ∧ parent c = Some p.

(** [t] is an entry of [n.connections]. *)
Definition connected (h : Heap F) (n t : ref) : Prop :=
  ∃ c, nodes h !! n = Some c ∧ t ∈ connections c.

(** References held in attributes point to live objects. *)
Definition parents_allocated (h : Heap F) : Prop :=
  ∀ n p, parent_of h n p → p < length (nodes h).

Definition connections_allocated (h : Heap F) : Prop :=
  ∀ n t, connected h n t → t < length (nodes h).

(** What [send_signal] reads of an object: its connections and its flag. *)
Definition wiring (c : Component F) : list ref * bool :=
  (connections c, active c).

Definition same_wiring (h0 h : Heap F) : Prop :=
  wiring <$> nodes h = wiring <$> nodes h0.

Definition is_active (h : Heap F) (t : ref) : bool :=
  match nodes h !! t with
  | Some c => active c
  | None => false
  end.

(** The calls of one [send_signal self signal]: one call per entry of
    [self.connections] whose [active] flag is set, in the order of the list,
    each on the signal sent; each call gave back one signal, and the calls
    nested under it are those of sending that signal from the target. *)
Inductive Broadcast (h : Heap F) : ref → sref → list Call → Prop :=
| Broadcast_intro (self : ref) (signal : sref) c (calls : list Call) :
    nodes h !! self = Some c →
    map call_target calls = List.filter (is_active h) (connections c) →
    Forall (λ k, call_input k = signal ∧
                 ∃ o, call_outputs k = [o] ∧
                      Broadcast h (call_target k) o (call_nested k)) calls →
    Broadcast h self signal calls.

End Graphs.

(** A sufficient test, by evaluation: every edge leads to an object
    allocated earlier. *)
Definition targets_before {F : Type} (edges : Component F → list ref)
  (h : Heap F) : bool :=
  forallb (λ ic : nat * Component F,
             forallb (λ t, t <? fst ic) (edges (snd ic)))
          (imap pair (nodes h)).

(** No object reachable from [start] lies on a cycle of [R]. *)
Definition acyclic_from (R : relation nat) (start : nat) : Prop :=
  ∀ m, rtc R start m → ¬ tc R m m.

(** No cycle at all. *)
Definition acyclic (R : relation nat) : Prop := ∀ m, ¬ tc R m m.

(** The objects [visited] on the way from [start] down to [n], all below
    [bound], without repetition, each one leading to [n]. *)
Definition on_walk (R : relation nat) (bound start : nat)
  (visited : list nat) (n : nat) : Prop :=
  rtc R start n ∧ n < bound ∧ NoDup (n :: visited) ∧
  Forall (λ v, v < bound) visited ∧ ∀ v, v ∈ visited → tc R v n.

(** ** Further notions for the tree, the search and the broadcast *)

Section Structure.
Context {F : Type}.

(** [c] is an entry of [p.children]. *)
Definition child_of (h : Heap F) (p c : ref) : Prop :=
  ∃ cp, nodes h !! p = Some cp ∧ c ∈ children cp.

Definition children_allocated (h : Heap F) : Prop :=
  ∀ p c, child_of h p c → c < length (nodes h).

(** Every entry of a list of children points back to the owner of the
    list. *)
Definition children_know_parent (h : Heap F) : Prop :=
  ∀ p c, child_of h p c →
         ∃ cc, nodes h !! c = Some cc ∧ parent cc = Some p.

Definition with_active (b : bool) (c : Component F) : Component F :=
  {| name := name c; parent := parent c; children := children c;
     connections := connections c; active := b; variant := variant c |}.

(** Everything of an object except its activity level. *)
Definition structure_of (c : Component F)
  : string * option ref * list ref * list ref * bool
    * option string * option string * option Z :=
  (name c, parent c, children c, connections c, active c,
   function c, area_type c, layers c).

Definition same_structure (h h' : Heap F) : Prop :=
  structure_of <$> nodes h' = structure_of <$> nodes h.

End Structure.

(** The attribute assignment [component.active = b]; the source has no method
    for it. *)
Definition set_active {F : Type} (self : ref) (b : bool) : M F unit :=
  update_node self (with_active b).

(** Number of [process_signal] calls in a call tree, and their targets. *)
Fixpoint call_count (k : Call) : nat :=
  match k with
  | MkCall _ _ _ nested => S (list_sum (List.map call_count nested))
  end.

Definition calls_count (calls : list Call) : nat :=
  list_sum (List.map call_count calls).

Fixpoint call_targets (k : Call) : list ref :=
  match k with
  | MkCall t _ _ nested => t :: List.concat (List.map call_targets nested)
  end.

Definition calls_targets (calls : list Call) : list ref :=
  List.concat (List.map call_targets calls).

(** What a broadcast with call tree [calls] may have done to the heap: the
    structure of every object is as before, one signal was added per call and
    no earlier signal changed, and an object that was the target of no call
    is exactly as before. *)
Definition broadcast_frame {F : Type} (h : Heap F) (calls : list Call)
  (h' : Heap F) : Prop :=
  same_structure h h' ∧
  (∃ new, signals h' = signals h ++ new ∧ length new = calls_count calls) ∧
  (∀ n, n ∉ calls_targets calls → nodes h' !! n = nodes h !! n).

(** The self-connected component of [loop_heap], switched off. *)
Definition quiet_loop_heap {F : Type} `{Arith F} : Heap F :=
  match set_active 0 false (loop_heap (F := F)) with
  | Some (_, h) => h
  | None => loop_heap
  end.

(** A second sufficient test, by evaluation: every edge leads to a live
    object allocated later. *)
Definition targets_after {F : Type} (edges : Component F → list ref)
  (h : Heap F) : bool :=
  forallb (λ ic : nat * Component F,
             forallb (λ t, (fst ic <? t) && (t <? length (nodes h)))
                     (edges (snd ic)))
          (imap pair (nodes h)).

(** ** [print_hierarchy] ([demo-hierarchy.py]) *)

(** ["  " * indent] *)
Fixpoint indentation (indent : nat) : string :=
  match indent with
  | 0 => EmptyString
  | S n => "  " +:+ indentation n
  end.

(** The text of one line: ["  " * indent + f"├── {component.name}"]. *)
Definition hierarchy_line (indent : nat) (nm : string) : string :=
  indentation indent +:+ "├── " +:+ nm.

Section PrintHierarchy.
Context {F : Type}.

(** The function prints and returns nothing.  The model returns what it
    printed: for every [print] call, in order, the component and the line. *)
Fixpoint print_hierarchy (fuel : nat) (component : ref) (indent : nat)
  : M F (list (ref * string)) :=
  match fuel with
  | 0 => fail
  | S fuel' =>
      do c <- get_node component;
      do below <- for_each (children c) (λ child,
                    print_hierarchy fuel' child (indent + 1));
      ret ((component, hierarchy_line indent (name c)) :: below)
  end.

(** [component.name == nm] for the object behind a reference. *)
Definition has_name (h : Heap F) (nm : string) (r : ref) : bool :=
  match nodes h !! r with
  | Some c => String.eqb (name c) nm
  | None => false
  end.

(** A test by evaluation of the shape of a heap below [root]: only [root]
    is without parent; a parent is allocated earlier and lists the object
    exactly once; every entry of a children list points back to the owner;
    there is no connection and every flag is on. *)
Definition tree_check (root : ref) (h : Heap F) : bool :=
  forallb (λ ic : nat * Component F,
             match parent (snd ic) with
             | None => fst ic =? root
             | Some p =>
                 (p <? fst ic) &&
                 match nodes h !! p with
                 | Some cp =>
                     count_occ Nat.eq_dec (children cp) (fst ic) =? 1
                 | None => false
                 end
             end &&
             forallb (λ k, match nodes h !! k with
                           | Some ck =>
                               match parent ck with
                               | Some q => q =? fst ic
                               | None => false
                               end
                           | None => false
                           end) (children (snd ic)) &&
             match connections (snd ic) with [] => true | _ => false end &&
             active (snd ic))
          (imap pair (nodes h)).

End PrintHierarchy.

(** ** The builder at work, and tests by evaluation for [add_child] *)

(** [build_complete_system] up to the moment before [cns.add_child(brain)]:
    the root, the central nervous system under it, and the brain with all
    its parts.  The result is the pair of [cns] and [brain]. *)
Definition brain_built {F : Type} `{Arith F} : M F (ref * ref) :=
  do root <- new_BasicNervousSystemComponent "NervousSystem" None;
  do cns <- new_BasicNervousSystemComponent "CentralNervousSystem" None;
  run add_child root cns;
  do brain <- _build_brain;
  ret (cns, brain).

Definition brain_built_heap {F : Type} `{Arith F} : Heap F :=
  heap_after brain_built.

(** Every entry of every children list points back to the owner. *)
Definition back_references_check {F : Type} (h : Heap F) : bool :=
  forallb (λ ic : nat * Component F,
             forallb (λ k, match nodes h !! k with
                           | Some ck =>
                               match parent ck with
                               | Some q => q =? fst ic
                               | None => false
                               end
                           | None => false
                           end) (children (snd ic)))
          (imap pair (nodes h)).

(** [child] is an entry of no children list. *)
Definition listed_nowhere {F : Type} (child : ref) (h : Heap F) : bool :=
  forallb (λ c : Component F, forallb (λ k, negb (k =? child)) (children c))
          (nodes h).

(** ** What one [send_signal] does, without fuel

    The three loops of [send_signal] as relations between the heap before
    and the heap after.  [Sends h self signal calls h']: the method runs on
    [self] from heap [h].  [Delivers h ts signal calls h']: the outer loop
    over the connections [ts] that are left; an entry whose flag is off is
    skipped, any other receives [process_signal], whose result and heap are
    the ones the method goes on with.  [Relays h t outs calls h']: the inner
    loop, which sends each returned signal from the target [t]. *)

Section Propagation.
Context {F : Type} `{Arith F}.

Inductive Sends : Heap F → ref → sref → list Call → Heap F → Prop :=
| Sends_intro h self signal c calls h' :
    nodes h !! self = Some c →
    Delivers h (connections c) signal calls h' →
    Sends h self signal calls h'
with Delivers : Heap F → list ref → sref → list Call → Heap F → Prop :=
| Delivers_done h signal :
    Delivers h [] signal [] h
| Delivers_inactive h t ts signal ct calls h' :
    nodes h !! t = Some ct →
    active ct = false →
    Delivers h ts signal calls h' →
    Delivers h (t :: ts) signal calls h'
| Delivers_active h t ts signal ct outs h1 nested h2 calls h' :
    nodes h !! t = Some ct →
    active ct = true →
    process_signal t signal h = Some (outs, h1) →
    Relays h1 t outs nested h2 →
    Delivers h2 ts signal calls h' →
    Delivers h (t :: ts) signal (MkCall t signal outs nested :: calls) h'
with Relays : Heap F → ref → list sref → list Call → Heap F → Prop :=
| Relays_done h t :
    Relays h t [] [] h
| Relays_next h t o os calls1 h1 calls2 h2 :
    Sends h t o calls1 h1 →
    Relays h1 t os calls2 h2 →
    Relays h t (o :: os) (calls1 ++ calls2) h2.

End Propagation.

(** ** Binary64 values as scaled integers

    A finite binary64 number is [m * 2 ^ e] with [e] at least the smallest
    exponent [emin], so that [m * 2 ^ (e - emin)] is an integer.  For a
    precision of [prc] bits, [sexp prc d] is the exponent, counted from
    [emin], that the format gives to a value of [d] binary digits, and a
    mantissa [m] with exponent [E] is canonical when [E] is that exponent. *)

Definition sexp (prc d : Z) : Z := Z.max (d - prc) 0.

Definition canon (prc m E : Z) : Prop := E = sexp prc (Zdigits2 m + E)%Z.

(** Zero of either sign, a positive number, plus infinity, or NaN. *)
Definition not_negative (x : spec_float) : Prop :=
  match x with
  | S754_finite s _ _ | S754_infinity s => s = false
  | _ => True
  end.

(** * Properties *)

Section ProcessSignal.
Context {F : Type} `{Arith F}.

(** ** One call of each [process_signal] method, in closed form *)

Lemma BasicNervousSystemComponent_process_signal_run
  (h : Heap F) self signal g :
  signals h !! signal = Some g →
  BasicNervousSystemComponent_process_signal self signal h =
    Some ([length (signals h)],
          {| nodes := nodes h;
             signals := signals h ++
               [{| signal_type := signal_type g;
                   strength := fmul (strength g) lit_0_9;
                   data := data g |}] |}).
Proof.
  intros Hg.
  unfold BasicNervousSystemComponent_process_signal, bind, get_signal.
  now rewrite Hg.
Qed.

Lemma BrainRegion_process_signal_run (h : Heap F) self signal c g a f :
  nodes h !! self = Some c →
  signals h !! signal = Some g →
  activity_level c = Some a →
  function c = Some f →
  BrainRegion_process_signal self signal h =
    Some ([length (signals h)],
          {| nodes := <[self := with_activity_level
                         (py_min lit_1_0
                            (fadd a (fmul (strength g) lit_0_1))) c]>
                      (nodes h);
             signals := signals h ++
               [{| signal_type := f +:+ "_processed";
                   strength := fmul (strength g) lit_0_8;
                   data := PyStr ("Processed by " +:+ name c) |}] |}).
Proof.
  intros Hc Hg Ha Hf.
  unfold BrainRegion_process_signal, bind, get_node, get_signal.
  rewrite Hc, Hg, Ha. cbn. unfold update_node. rewrite Hc, Hf. reflexivity.
Qed.

Lemma insert_last {A} (l : list A) (x y : A) :
  <[length l := y]> (l ++ [x]) = l ++ [y].
Proof.
  rewrite insert_app_r_alt by lia. now rewrite Nat.sub_diag.
Qed.

Lemma lookup_last {A} (l : list A) (x : A) :
  (l ++ [x]) !! length l = Some x.
Proof.
  rewrite lookup_app_r by lia. now rewrite Nat.sub_diag.
Qed.

Lemma scale_first_run (h : Heap F) (g : NeuralSignal F) k ns sg :
  scale_first [length sg] k {| nodes := ns; signals := sg ++ [g] |} =
    Some (tt, {| nodes := ns;
                 signals := sg ++ [with_strength (fmul (strength g) k) g] |}).
Proof.
  unfold scale_first, bind, lift_option, ret, update_signal. cbn.
  rewrite lookup_last. now rewrite insert_last.
Qed.

Lemma CorticalArea_process_signal_run (h : Heap F) self signal c g a f t :
  nodes h !! self = Some c →
  signals h !! signal = Some g →
  activity_level c = Some a →
  function c = Some f →
  area_type c = Some t →
  CorticalArea_process_signal self signal h =
    Some ([length (signals h)],
          {| nodes := <[self := with_activity_level
                         (py_min lit_1_0
                            (fadd a (fmul (strength g) lit_0_1))) c]>
                      (nodes h);
             signals := signals h ++
               [{| signal_type := f +:+ "_processed";
                   strength := cortical_adjust t (signal_type g)
                                 (fmul (strength g) lit_0_8);
                   data := PyStr ("Processed by " +:+ name c) |}] |}).
Proof.
  intros Hc Hg Ha Hf Ht.
  unfold CorticalArea_process_signal, bind at 1.
  rewrite (BrainRegion_process_signal_run h self signal c g a f) by assumption.
  unfold bind, get_node, get_signal. cbn.
  rewrite list_lookup_insert_eq by (eapply lookup_lt_Some; eassumption).
  assert (Ht' : ∀ x, area_type (with_activity_level x c) = Some t).
  { intros x. unfold area_type, with_activity_level in *. cbn.
    destruct (variant c); congruence. }
  rewrite Ht'. cbn.
  rewrite lookup_app_l by (eapply lookup_lt_Some; eassumption).
  rewrite Hg. unfold cortical_adjust.
  destruct (String.eqb t "motor" && String.eqb (signal_type g) "motor_command").
  - now rewrite (scale_first_run h).
  - destruct (String.eqb t "sensory").
    + now rewrite (scale_first_run h).
    + reflexivity.
Qed.

(** Dispatch picks the method of the object's class. *)
Lemma process_signal_dispatch (h : Heap F) self signal c :
  nodes h !! self = Some c →
  process_signal self signal h =
    match variant c with
    | BasicNervousSystemComponent =>
        BasicNervousSystemComponent_process_signal self signal h
    | BrainRegion _ _ => BrainRegion_process_signal self signal h
    | CorticalArea _ _ _ _ => CorticalArea_process_signal self signal h
    end.
Proof.
  intros Hc. unfold process_signal, bind at 1, get_node. rewrite Hc.
  now destruct (variant c).
Qed.

(** Every class: one fresh output object, the receiver updated in place. *)
Lemma process_signal_run (h : Heap F) self signal c g :
  nodes h !! self = Some c →
  signals h !! signal = Some g →
  process_signal self signal h =
    Some ([length (signals h)],
          {| nodes := <[self := node_after c g]> (nodes h);
             signals := signals h ++ [output_signal c g] |}).
Proof.
  intros Hc Hg. rewrite (process_signal_dispatch h self signal c Hc).
  unfold node_after, output_signal.
  destruct (variant c) as [|f a|f a t l] eqn:Hv.
  - rewrite (BasicNervousSystemComponent_process_signal_run h self signal g Hg).
    unfold activity_level. rewrite Hv.
    now rewrite list_insert_id.
  - erewrite BrainRegion_process_signal_run; eauto;
      unfold activity_level, function; now rewrite Hv.
  - erewrite CorticalArea_process_signal_run; eauto;
      unfold activity_level, function, area_type; now rewrite Hv.
Qed.

End ProcessSignal.

(** ** Single calls *)

(** C1. On an object of class [BrainRegion] or [CorticalArea], the
    [BrainRegion] method (which [CorticalArea] reaches through [super()])
    returns exactly one new signal: its kind is the function name followed by
    [_processed], its strength is the input strength times 0.8, its payload is
    [Processed by] followed by the object's name, whatever the kind and
    payload of the input.  The call sets [activity_level] to
    [min(1.0, activity_level + strength * 0.1)].  The dispatched
    [process_signal] keeps that kind, payload and activity level, and on a
    plain [BrainRegion] it is the same call. *)
Theorem region_process_signal_output {F : Type} `{Arith F}
  (h : Heap F) (self : ref) (signal : sref) c g :
  nodes h !! self = Some c →
  signals h !! signal = Some g →
  is_region c = true →
  ∃ f a o h1 h2 g2,
    function c = Some f ∧ activity_level c = Some a ∧
    BrainRegion_process_signal self signal h = Some ([o], h1) ∧
    signals h1 !! o =
      Some {| signal_type := f +:+ "_processed";
              strength := fmul (strength g) lit_0_8;
              data := PyStr ("Processed by " +:+ name c) |} ∧
    (nodes h1 !! self ≫= activity_level) =
      Some (py_min lit_1_0 (fadd a (fmul (strength g) lit_0_1))) ∧
    process_signal self signal h = Some ([o], h2) ∧
    signals h2 !! o = Some g2 ∧
    signal_type g2 = f +:+ "_processed" ∧
    data g2 = PyStr ("Processed by " +:+ name c) ∧
    (nodes h2 !! self ≫= activity_level) =
      Some (py_min lit_1_0 (fadd a (fmul (strength g) lit_0_1))) ∧
    (area_type c = None → h2 = h1).
Proof.
  intros Hc Hg Hr.
  assert (Hlt : self < length (nodes h)) by (eapply lookup_lt_Some; eauto).
  assert (∃ f a, function c = Some f ∧ activity_level c = Some a)
    as (f & a & Hf & Ha).
  { unfold function, activity_level, is_region in *.
    destruct (variant c); [discriminate | eauto | eauto]. }
  exists f, a, (length (signals h)).
  eexists. eexists. exists (output_signal c g).
  split; [exact Hf|]. split; [exact Ha|].
  split; [eapply BrainRegion_process_signal_run; eauto|].
  split; [apply lookup_last|].
  assert (Hact : ∀ x, activity_level (with_activity_level x c) = Some x).
  { intros x. unfold activity_level, with_activity_level in *. cbn.
    destruct (variant c); congruence. }
  split; [cbn; rewrite list_lookup_insert_eq by exact Hlt; apply Hact|].
  split; [eapply process_signal_run; eauto|].
  split; [apply lookup_last|].
  unfold output_signal, node_after, function, activity_level, area_type in *.
  destruct (variant c) as [|f' a'|f' a' t' l'] eqn:Hv; try discriminate;
    inversion Hf; inversion Ha; subst; cbn;
    rewrite list_lookup_insert_eq by exact Hlt; cbn;
    unfold activity_level, with_activity_level; cbn; rewrite Hv;
    repeat split; try reflexivity; try discriminate.
Qed.

Lemma region_process_signal_output_witness :
  ∃ o h2 g2,
    process_signal 1 0 (example_heap (F := Q)) = Some ([o], h2) ∧
    signals h2 !! o = Some g2 ∧
    signal_type g2 = "motor_coordination_processed" ∧
    (strength g2 == 0.64)%Q ∧
    data g2 = PyStr "Processed by Cerebellum".
Proof.
  destruct (region_process_signal_output (F := Q) example_heap 1 0 _ _
              eq_refl eq_refl eq_refl)
    as (f & a & o & h1 & h2 & g2 & Hf & _ & _ & Ho & _ & Hp & Hg2 & Hk & Hd
        & _ & Hsame).
  exists o, h2, g2. inversion Hf. subst f.
  split; [exact Hp|]. split; [exact Hg2|]. split; [exact Hk|].
  split; [|exact Hd].
  rewrite (Hsame eq_refl) in Hg2. rewrite Ho in Hg2.
  inversion Hg2. reflexivity.
Defined.

(** C2. On a [CorticalArea], [process_signal] returns exactly one signal.
    Its strength is the input strength times 0.8 times 1.2 when the area type
    is [motor] and the input kind is [motor_command]; times 0.8 times 0.9
    when the area type is [sensory], for any input kind; and times 0.8
    otherwise.  In exact arithmetic the two products are the input strength
    times 0.96 and times 0.72. *)
Theorem cortical_process_signal_strength :
  (∀ (F : Type) (A : Arith F) (h : Heap F) (self : ref) (signal : sref)
     c g f a t l,
     nodes h !! self = Some c →
     signals h !! signal = Some g →
     variant c = CorticalArea f a t l →
     ∃ o h' g',
       process_signal self signal h = Some ([o], h') ∧
       signals h' !! o = Some g' ∧
       (t = "motor" → signal_type g = "motor_command" →
        strength g' = fmul (fmul (strength g) lit_0_8) lit_1_2) ∧
       (t = "sensory" →
        strength g' = fmul (fmul (strength g) lit_0_8) lit_0_9) ∧
       (¬ (t = "motor" ∧ signal_type g = "motor_command") →
        t ≠ "sensory" →
        strength g' = fmul (strength g) lit_0_8))
  ∧ (∀ s : Q,
       (fmul (fmul s lit_0_8) lit_1_2 == s * 0.96)%Q ∧
       (fmul (fmul s lit_0_8) lit_0_9 == s * 0.72)%Q).
Proof.
  split.
  - intros F A h self signal c g f a t l Hc Hg Hv.
    exists (length (signals h)). eexists. exists (output_signal c g).
    split; [eapply process_signal_run; eauto|].
    split; [apply lookup_last|].
    unfold output_signal. rewrite Hv. cbn. unfold cortical_adjust.
    repeat split.
    + intros -> ->. reflexivity.
    + intros ->. reflexivity.
    + intros Hn1 Hn2.
      destruct (String.eqb_spec t "motor") as [E1|E1];
        destruct (String.eqb_spec (signal_type g) "motor_command") as [E2|E2];
        destruct (String.eqb_spec t "sensory") as [E3|E3]; cbn;
        try reflexivity; try congruence; exfalso; apply Hn1; auto.
  - intros s. cbn. split; ring.
Qed.

Lemma cortical_process_signal_strength_witness :
  ∃ o h' g',
    process_signal 2 0 (example_heap (F := Q)) = Some ([o], h') ∧
    signals h' !! o = Some g' ∧
    (strength g' == 0.768)%Q.
Proof.
  destruct (proj1 cortical_process_signal_strength Q exact example_heap 2 0
              _ _ _ _ _ _ eq_refl eq_refl eq_refl)
    as (o & h' & g' & Hp & Hg' & Hmotor & _).
  exists o, h', g'. repeat split; try assumption.
  rewrite (Hmotor eq_refl eq_refl). reflexivity.
Defined.

(** In binary64 the product is rounded twice, so it need not be the input
    strength times 0.96: for strength 0.8 the two differ in the last
    place. *)
Lemma binary64_motor_gain_rounds_twice :
  fmul (fmul lit_0_8 lit_0_8) lit_1_2 = 0.7680000000000001%float ∧
  fmul lit_0_8 0.96%float = 0.768%float ∧
  PrimFloat.eqb 0.7680000000000001 0.768 = false.
Proof. repeat split; vm_compute; reflexivity. Qed.

(** C5. On a [BasicNervousSystemComponent], [process_signal] returns exactly
    one new signal with the kind of the input, the input strength times 0.9,
    and the payload of the input; the component itself is not changed. *)
Theorem basic_process_signal_output {F : Type} `{Arith F}
  (h : Heap F) (self : ref) (signal : sref) c g :
  nodes h !! self = Some c →
  variant c = BasicNervousSystemComponent →
  signals h !! signal = Some g →
  ∃ o h',
    process_signal self signal h = Some ([o], h') ∧
    signals h' !! o =
      Some {| signal_type := signal_type g;
              strength := fmul (strength g) lit_0_9;
              data := data g |} ∧
    nodes h' = nodes h.
Proof.
  intros Hc Hv Hg.
  exists (length (signals h)). eexists.
  split; [eapply process_signal_run; eauto|].
  unfold output_signal, node_after, activity_level. rewrite Hv. cbn.
  split; [apply lookup_last | now apply list_insert_id].
Qed.

Lemma basic_process_signal_output_witness :
  ∃ o h',
    process_signal 0 0 (example_heap (F := float)) = Some ([o], h') ∧
    signals h' !! o =
      Some {| signal_type := "motor_command";
              strength := fmul lit_0_8 lit_0_9;
              data := PyStr "move_right_hand" |} ∧
    nodes h' = nodes (example_heap (F := float)).
Proof.
  exact (basic_process_signal_output (F := float) example_heap 0 0 _ _
           eq_refl eq_refl eq_refl).
Defined.

(** ** Frame of a call *)

Lemma node_after_fields {F : Type} `{Arith F} (c : Component F) g :
  name (node_after c g) = name c ∧
  parent (node_after c g) = parent c ∧
  children (node_after c g) = children c ∧
  connections (node_after c g) = connections c ∧
  active (node_after c g) = active c ∧
  function (node_after c g) = function c ∧
  area_type (node_after c g) = area_type c ∧
  layers (node_after c g) = layers c.
Proof.
  unfold node_after, activity_level, function, area_type, layers,
    with_activity_level.
  destruct (variant c) eqn:Hv; cbn; try rewrite Hv; repeat split.
Qed.

(** C9. For every class of receiver and every input, a [process_signal]
    call leaves the input signal object as it was (kind, strength and payload),
    as it does every signal that existed before the call, and changes no
    attribute of the receiver other than [activity_level]: [name], [parent],
    [children], [connections], [active], [function], [area_type] and [layers]
    are the same afterwards.  No other component is touched. *)
Theorem process_signal_frame {F : Type} `{Arith F}
  (h : Heap F) (self : ref) (signal : sref) c g :
  nodes h !! self = Some c →
  signals h !! signal = Some g →
  ∃ outs h' c',
    process_signal self signal h = Some (outs, h') ∧
    signals h' !! signal = Some g ∧
    (∀ r g0, signals h !! r = Some g0 → signals h' !! r = Some g0) ∧
    nodes h' !! self = Some c' ∧
    name c' = name c ∧
    parent c' = parent c ∧
    children c' = children c ∧
    connections c' = connections c ∧
    active c' = active c ∧
    function c' = function c ∧
    area_type c' = area_type c ∧
    layers c' = layers c ∧
    (∀ r, r ≠ self → nodes h' !! r = nodes h !! r) ∧
    length (nodes h') = length (nodes h).
Proof.
  intros Hc Hg.
  assert (Hlt : self < length (nodes h)) by (eapply lookup_lt_Some; eauto).
  eexists. eexists. exists (node_after c g).
  split; [eapply process_signal_run; eauto|]. cbn.
  split; [now apply lookup_app_l_Some|].
  split; [intros r g0 Hr; now apply lookup_app_l_Some|].
  split; [now apply list_lookup_insert_eq|].
  destruct (node_after_fields c g) as (? & ? & ? & ? & ? & ? & ? & ?).
  repeat (split; [assumption|]).
  split; [|apply length_insert].
  intros r Hr. now apply list_lookup_insert_ne.
Qed.

Lemma process_signal_frame_witness :
  ∃ outs h',
    process_signal 2 0 (example_heap (F := float)) = Some (outs, h') ∧
    signals h' !! 0 =
      Some {| signal_type := "motor_command"; strength := lit_0_8;
              data := PyStr "move_right_hand" |} ∧
    (name <$> nodes h' !! 2) = Some "PrimaryMotorCortex".
Proof.
  destruct (process_signal_frame (F := float) example_heap 2 0 _ _
              eq_refl eq_refl)
    as (outs & h' & c' & Hp & Hs & _ & Hc' & Hn & _).
  exists outs, h'. split; [exact Hp|]. split; [exact Hs|].
  rewrite Hc'. cbn. now rewrite Hn.
Defined.

(** ** Rounding of binary64 sums *)

Section Rounding.
Local Open Scope Z_scope.

Variables prc emx : Z.
Hypothesis prc_pos : 0 < prc.

(** *** Digits *)

Lemma digits2_pos_bounds (m : positive) :
  2 ^ (Z.pos (digits2_pos m) - 1) ≤ Z.pos m < 2 ^ Z.pos (digits2_pos m).
Proof.
  induction m as [m IH|m IH|]; cbn [digits2_pos].
  - rewrite Pos2Z.inj_succ.
    replace (Z.succ (Z.pos (digits2_pos m)) - 1)
      with (Z.succ (Z.pos (digits2_pos m) - 1)) by lia.
    rewrite !Z.pow_succ_r by lia. lia.
  - rewrite Pos2Z.inj_succ.
    replace (Z.succ (Z.pos (digits2_pos m)) - 1)
      with (Z.succ (Z.pos (digits2_pos m) - 1)) by lia.
    rewrite !Z.pow_succ_r by lia. lia.
  - cbn. lia.
Qed.

Lemma Zdigits2_bounds (m : Z) :
  0 < m → 2 ^ (Zdigits2 m - 1) ≤ m < 2 ^ Zdigits2 m.
Proof.
  destruct m as [|m|m]; try lia. intros _. apply digits2_pos_bounds.
Qed.

Lemma Zdigits2_pos (m : Z) : 0 < m → 0 < Zdigits2 m.
Proof. destruct m; cbn; lia. Qed.

(** A value with more digits, exponent included, is larger. *)
Lemma digits_le (m1 E1 m2 E2 : Z) :
  0 < m1 → 0 < m2 → 0 ≤ E1 → 0 ≤ E2 →
  m1 * 2 ^ E1 ≤ m2 * 2 ^ E2 →
  Zdigits2 m1 + E1 ≤ Zdigits2 m2 + E2.
Proof.
  intros H1 H2 HE1 HE2 Hle.
  pose proof (Zdigits2_bounds m1 H1) as [B1 _].
  pose proof (Zdigits2_bounds m2 H2) as [_ B2].
  pose proof (Zdigits2_pos m1 H1) as D1.
  pose proof (Zdigits2_pos m2 H2) as D2.
  assert (P1 : 0 < 2 ^ E1) by (apply Z.pow_pos_nonneg; lia).
  assert (P2 : 0 < 2 ^ E2) by (apply Z.pow_pos_nonneg; lia).
  assert (L : 2 ^ (Zdigits2 m1 - 1 + E1) < 2 ^ (Zdigits2 m2 + E2)).
  { rewrite !Z.pow_add_r by lia. nia. }
  apply Z.pow_lt_mono_r_iff in L; lia.
Qed.

(** *** The exponent of a value, counted from [emin] *)

Lemma fexp_sexp (d E : Z) :
  SpecFloat.fexp prc emx (d + (E + SpecFloat.emin prc emx)) =
    sexp prc (d + E) + SpecFloat.emin prc emx.
Proof. unfold SpecFloat.fexp, sexp. lia. Qed.

Lemma canon_digits (m E : Z) : canon prc m E → Zdigits2 m ≤ prc ∧ 0 ≤ E.
Proof. unfold canon, sexp. lia. Qed.

(** Truncating a value to its own exponent keeps it above every canonical
    value below it. *)
Lemma floor_ge (ma Ea m E : Z) :
  0 < ma → canon prc ma Ea → 0 < m → 0 ≤ E →
  E ≤ sexp prc (Zdigits2 m + E) →
  ma * 2 ^ Ea ≤ m * 2 ^ E →
  ma * 2 ^ Ea ≤
    (m `div` 2 ^ (sexp prc (Zdigits2 m + E) - E))
      * 2 ^ sexp prc (Zdigits2 m + E).
Proof.
  intros Hma Hca Hm HE Hal Hle.
  destruct (canon_digits _ _ Hca) as [Hda HEa].
  pose proof (digits_le ma Ea m E Hma Hm HEa HE Hle) as Hd.
  set (E1 := sexp prc (Zdigits2 m + E)) in *.
  set (n := E1 - E).
  assert (Hn : 0 ≤ n) by (unfold n; lia).
  assert (HEa1 : Ea ≤ E1) by (unfold canon, sexp in *; unfold E1, sexp; lia).
  assert (P2n : 0 < 2 ^ n) by (apply Z.pow_pos_nonneg; lia).
  assert (P2E : 0 < 2 ^ E) by (apply Z.pow_pos_nonneg; lia).
  assert (HE1 : 2 ^ E1 = 2 ^ n * 2 ^ E).
  { rewrite <- Z.pow_add_r by lia. f_equal. unfold n. lia. }
  destruct (Z.eq_dec Ea E1) as [Heq|Hne].
  - rewrite Heq in *.
    assert (ma ≤ m `div` 2 ^ n).
    { apply Z.div_le_lower_bound; [lia|]. rewrite HE1 in Hle. nia. }
    assert (0 < 2 ^ E1) by (apply Z.pow_pos_nonneg; lia). nia.
  - assert (HE1pos : E1 = Zdigits2 m + E - prc)
      by (unfold E1, sexp in *; lia).
    pose proof (Zdigits2_bounds m Hm) as [Bm _].
    pose proof (Zdigits2_bounds ma Hma) as [_ Ba].
    assert (Hq : 2 ^ (prc - 1) ≤ m `div` 2 ^ n).
    { apply Z.div_le_lower_bound; [lia|].
      rewrite <- Z.pow_add_r by lia.
      replace (n + (prc - 1)) with (Zdigits2 m - 1) by (unfold n; lia).
      exact Bm. }
    assert (Ha : ma * 2 ^ Ea < 2 ^ (prc - 1) * 2 ^ E1).
    { rewrite <- Z.pow_add_r by lia.
      assert (2 ^ Zdigits2 ma * 2 ^ Ea ≤ 2 ^ (prc - 1 + E1)).
      { rewrite <- Z.pow_add_r by (pose proof (Zdigits2_pos ma Hma); lia).
        apply Z.pow_le_mono_r; lia. }
      assert (0 < 2 ^ Ea) by (apply Z.pow_pos_nonneg; lia). nia. }
    assert (0 < 2 ^ E1) by (apply Z.pow_pos_nonneg; lia). nia.
Qed.

(** Rounding a value up at its own exponent keeps it below every canonical
    value above it. *)
Lemma ceil_le (ma Ea m E : Z) :
  0 < ma → canon prc ma Ea → 0 < m → 0 ≤ E →
  E ≤ sexp prc (Zdigits2 m + E) →
  m * 2 ^ E ≤ ma * 2 ^ Ea →
  sexp prc (Zdigits2 m + E) ≤ Ea ∧
  (m `div` 2 ^ (sexp prc (Zdigits2 m + E) - E)) * 2 ^ sexp prc (Zdigits2 m + E)
    ≤ ma * 2 ^ Ea ∧
  (m `mod` 2 ^ (sexp prc (Zdigits2 m + E) - E) ≠ 0 →
   (m `div` 2 ^ (sexp prc (Zdigits2 m + E) - E) + 1)
     * 2 ^ sexp prc (Zdigits2 m + E) ≤ ma * 2 ^ Ea).
Proof.
  intros Hma Hca Hm HE Hal Hle.
  destruct (canon_digits _ _ Hca) as [Hda HEa].
  pose proof (digits_le m E ma Ea Hm Hma HE HEa Hle) as Hd.
  set (E1 := sexp prc (Zdigits2 m + E)) in *.
  set (n := E1 - E).
  assert (Hn : 0 ≤ n) by (unfold n; lia).
  assert (HEa1 : E1 ≤ Ea) by (unfold canon, sexp in *; unfold E1, sexp; lia).
  assert (P2n : 0 < 2 ^ n) by (apply Z.pow_pos_nonneg; lia).
  assert (P2E : 0 < 2 ^ E) by (apply Z.pow_pos_nonneg; lia).
  assert (P2E1 : 0 < 2 ^ E1) by (apply Z.pow_pos_nonneg; lia).
  assert (HE1 : 2 ^ E1 = 2 ^ n * 2 ^ E).
  { rewrite <- Z.pow_add_r by lia. f_equal. unfold n. lia. }
  assert (HEa' : 2 ^ Ea = 2 ^ (Ea - E1) * 2 ^ E1).
  { rewrite <- Z.pow_add_r by lia. f_equal. lia. }
  set (K := ma * 2 ^ (Ea - E1)).
  assert (HK : ma * 2 ^ Ea = K * 2 ^ E1) by (unfold K; rewrite HEa'; ring).
  pose proof (Z.div_mod m (2 ^ n) ltac:(lia)) as Hdm.
  pose proof (Z.mod_pos_bound m (2 ^ n) P2n) as Hmod.
  set (q := m `div` 2 ^ n) in *. set (r := m `mod` 2 ^ n) in *.
  assert (HmK : m ≤ K * 2 ^ n).
  { rewrite HK, HE1 in Hle. nia. }
  split; [exact HEa1|]. rewrite HK. split.
  - assert (q ≤ K) by nia. nia.
  - intros Hr. assert (q < K) by nia. nia.
Qed.

(** *** Shifting right *)

Lemma iter_pos_nat {A} (f : A → A) (p : positive) (x : A) :
  SpecFloat.iter_pos f p x = Nat.iter (Pos.to_nat p) f x.
Proof.
  revert x. induction p as [p IH|p IH|]; intros x; cbn [SpecFloat.iter_pos].
  - rewrite !IH, Pos2Nat.inj_xI, Nat.iter_succ, !Nat.iter_swap.
    replace (2 * Pos.to_nat p)%nat with (Pos.to_nat p + Pos.to_nat p)%nat
      by lia.
    now rewrite Nat.iter_add.
  - rewrite !IH, Pos2Nat.inj_xO.
    replace (2 * Pos.to_nat p)%nat with (Pos.to_nat p + Pos.to_nat p)%nat
      by lia.
    now rewrite Nat.iter_add.
  - reflexivity.
Qed.

Lemma shr_1_spec (m : Z) (r s : bool) :
  0 ≤ m →
  shr_1 {| shr_m := m; shr_r := r; shr_s := s |} =
    {| shr_m := m `div` 2; shr_r := Z.odd m; shr_s := r || s |}.
Proof.
  intros Hm. rewrite <- Z.div2_div.
  destruct m as [|[p|p|]|p]; try lia; reflexivity.
Qed.

Lemma shr_nat (m : Z) (k : nat) :
  0 ≤ m →
  ∃ r s,
    Nat.iter k shr_1 {| shr_m := m; shr_r := false; shr_s := false |} =
      {| shr_m := m `div` 2 ^ Z.of_nat k; shr_r := r; shr_s := s |} ∧
    (r || s = true → m `mod` 2 ^ Z.of_nat k ≠ 0).
Proof.
  intros Hm. induction k as [|k (r & s & IH & Hrs)].
  - exists false, false. cbn [Nat.iter nat_rect]. rewrite Z.div_1_r.
    split; [reflexivity|discriminate].
  - assert (P : 0 < 2 ^ Z.of_nat k) by (apply Z.pow_pos_nonneg; lia).
    assert (Hq : 0 ≤ m `div` 2 ^ Z.of_nat k) by (apply Z.div_pos; lia).
    exists (Z.odd (m `div` 2 ^ Z.of_nat k)), (r || s).
    cbn [Nat.iter nat_rect].
    change (nat_rect _ ?x _ ?n) with (Nat.iter n shr_1 x).
    rewrite IH, shr_1_spec by exact Hq.
    rewrite Nat2Z.inj_succ, Z.pow_succ_r by lia.
    rewrite Z.div_div by lia.
    replace (2 ^ Z.of_nat k * 2) with (2 * 2 ^ Z.of_nat k) by ring.
    split; [reflexivity|].
    intros Hflag Hmod.
    assert (Hdiv : m = 2 * 2 ^ Z.of_nat k * (m `div` (2 * 2 ^ Z.of_nat k))).
    { pose proof (Z.div_mod m (2 * 2 ^ Z.of_nat k) ltac:(lia)). lia. }
    set (t := m `div` (2 * 2 ^ Z.of_nat k)) in *.
    assert (Hmk : m `div` 2 ^ Z.of_nat k = 2 * t).
    { rewrite Hdiv at 1.
      replace (2 * 2 ^ Z.of_nat k * t) with ((2 * t) * 2 ^ Z.of_nat k) by ring.
      apply Z.div_mul. lia. }
    apply orb_true_iff in Hflag as [Hodd|Hflag].
    + rewrite Hmk, Z.odd_mul in Hodd. discriminate.
    + apply (Hrs Hflag). rewrite Hdiv.
      replace (2 * 2 ^ Z.of_nat k * t) with ((2 * t) * 2 ^ Z.of_nat k) by ring.
      apply Z.mod_mul. lia.
Qed.

(** [shr] on an exact record: the quotient, and an exact location unless a
    bit was lost. *)
Lemma shr_spec (m e n : Z) :
  0 ≤ m → 0 ≤ n →
  ∃ mrs,
    shr {| shr_m := m; shr_r := false; shr_s := false |} e n = (mrs, e + n) ∧
    shr_m mrs = m `div` 2 ^ n ∧
    (loc_of_shr_record mrs = loc_Exact ∨ m `mod` 2 ^ n ≠ 0).
Proof.
  intros Hm Hn. destruct n as [|p|p]; [| |lia].
  - eexists. split; [cbn; now rewrite Z.add_0_r|].
    cbn [shr_m]. rewrite Z.div_1_r. split; [reflexivity|now left].
  - destruct (shr_nat m (Pos.to_nat p) Hm) as (r & s & Hit & Hrs).
    rewrite positive_nat_Z in Hit, Hrs.
    eexists. split; [cbn [shr]; rewrite iter_pos_nat, Hit; reflexivity|].
    cbn [shr_m]. split; [reflexivity|].
    destruct r, s; cbn; auto.
Qed.

Lemma round_nearest_even_bounds (m : Z) (l : location) :
  m ≤ round_nearest_even m l ≤ m + 1 ∧
  (l = loc_Exact → round_nearest_even m l = m).
Proof.
  destruct l as [|[]]; cbn [round_nearest_even];
    try (destruct (Z.even m));
    (split; [lia|intros Hl; try discriminate Hl; reflexivity]).
Qed.

(** *** The two shifts of [binary_round_aux] *)

Abbreviation emn := (SpecFloat.emin prc emx).

Lemma shr_fexp_exact (m e : Z) :
  0 ≤ m → emn ≤ e →
  (sexp prc (Zdigits2 m + (e - emn)) ≤ e - emn ∧
   shr_fexp prc emx m e loc_Exact =
     ({| shr_m := m; shr_r := false; shr_s := false |}, e))
  ∨
  (e - emn < sexp prc (Zdigits2 m + (e - emn)) ∧
   ∃ mrs,
     shr_fexp prc emx m e loc_Exact =
       (mrs, sexp prc (Zdigits2 m + (e - emn)) + emn) ∧
     shr_m mrs = m `div` 2 ^ (sexp prc (Zdigits2 m + (e - emn)) - (e - emn)) ∧
     (loc_of_shr_record mrs = loc_Exact ∨
      m `mod` 2 ^ (sexp prc (Zdigits2 m + (e - emn)) - (e - emn)) ≠ 0)).
Proof.
  intros Hm He. unfold shr_fexp. cbn [shr_record_of_loc].
  replace (Zdigits2 m + e) with (Zdigits2 m + ((e - emn) + emn)) by lia.
  rewrite fexp_sexp.
  set (E1 := sexp prc (Zdigits2 m + (e - emn))).
  destruct (Z_le_gt_dec E1 (e - emn)) as [Hle|Hgt].
  - left. split; [exact Hle|].
    destruct (E1 + emn - e) as [|p|p] eqn:En; try lia; reflexivity.
  - right. split; [lia|].
    destruct (shr_spec m e (E1 + emn - e) Hm ltac:(lia))
      as (mrs & Hshr & Hq & Hloc).
    exists mrs. rewrite Hshr.
    replace (E1 + emn - e) with (E1 - (e - emn)) in * by lia.
    split; [f_equal; lia|]. split; [exact Hq|exact Hloc].
Qed.

(** *** Lower and upper bounds of a rounded value *)

Lemma binary_round_aux_lower (s : bool) (mz e ma Ea : Z) :
  0 < mz → emn ≤ e →
  e - emn ≤ sexp prc (Zdigits2 mz + (e - emn)) →
  0 < ma → canon prc ma Ea →
  ma * 2 ^ Ea ≤ mz * 2 ^ (e - emn) →
  binary_round_aux prc emx s mz e loc_Exact = S754_infinity s ∨
  ∃ m e',
    binary_round_aux prc emx s mz e loc_Exact = S754_finite s m e' ∧
    emn ≤ e' ∧ ma * 2 ^ Ea ≤ Z.pos m * 2 ^ (e' - emn).
Proof.
  intros Hmz He Hal Hma Hca Hle.
  assert (Hapos : 0 < ma * 2 ^ Ea).
  { destruct (canon_digits _ _ Hca) as [_ HEa].
    assert (0 < 2 ^ Ea) by (apply Z.pow_pos_nonneg; lia). nia. }
  unfold binary_round_aux.
  (* first shift *)
  assert (Hfirst : ∃ mrs' E',
    shr_fexp prc emx mz e loc_Exact = (mrs', E' + emn) ∧ 0 ≤ E' ∧
    ma * 2 ^ Ea ≤ shr_m mrs' * 2 ^ E').
  { destruct (shr_fexp_exact mz e ltac:(lia) He)
      as [[_ Hs]|(Hlt & mrs & Hs & Hq & _)].
    - exists {| shr_m := mz; shr_r := false; shr_s := false |}, (e - emn).
      rewrite Hs. split; [f_equal; lia|]. split; [lia|exact Hle].
    - exists mrs, (sexp prc (Zdigits2 mz + (e - emn))).
      split; [exact Hs|]. split; [lia|]. rewrite Hq.
      apply floor_ge; auto; lia. }
  destruct Hfirst as (mrs' & E' & -> & HE' & Hv').
  set (m' := round_nearest_even (shr_m mrs') (loc_of_shr_record mrs')).
  assert (Hm' : ma * 2 ^ Ea ≤ m' * 2 ^ E').
  { pose proof (round_nearest_even_bounds (shr_m mrs')
                  (loc_of_shr_record mrs')) as [[Hlo _] _].
    fold m' in Hlo.
    assert (0 < 2 ^ E') by (apply Z.pow_pos_nonneg; lia). nia. }
  assert (Hm'pos : 0 < m').
  { assert (0 < 2 ^ E') by (apply Z.pow_pos_nonneg; lia). nia. }
  (* second shift *)
  assert (Hsecond : ∃ mrs'' E'',
    shr_fexp prc emx m' (E' + emn) loc_Exact = (mrs'', E'' + emn) ∧
    0 ≤ E'' ∧ ma * 2 ^ Ea ≤ shr_m mrs'' * 2 ^ E'').
  { destruct (shr_fexp_exact m' (E' + emn) ltac:(lia) ltac:(lia))
      as [[_ Hs]|(Hlt & mrs & Hs & Hq & _)];
      replace (E' + emn - emn) with E' in * by lia.
    - exists {| shr_m := m'; shr_r := false; shr_s := false |}, E'.
      rewrite Hs. split; [reflexivity|]. split; [lia|exact Hm'].
    - exists mrs, (sexp prc (Zdigits2 m' + E')).
      split; [exact Hs|]. split; [lia|]. rewrite Hq.
      apply floor_ge; auto; lia. }
  destruct Hsecond as (mrs'' & E'' & -> & HE'' & Hv'').
  assert (Hpos'' : 0 < shr_m mrs'').
  { assert (0 < 2 ^ E'') by (apply Z.pow_pos_nonneg; lia). nia. }
  destruct (shr_m mrs'') as [|m|m] eqn:Em; try lia.
  destruct (E'' + emn <=? emx - prc); [right|now left].
  exists m, (E'' + emn). split; [reflexivity|]. split; [lia|].
  replace (E'' + emn - emn) with E'' by lia. exact Hv''.
Qed.

Lemma binary_round_aux_upper (s : bool) (mz e ma Ea : Z) :
  0 < mz → emn ≤ e →
  e - emn ≤ sexp prc (Zdigits2 mz + (e - emn)) →
  0 < ma → canon prc ma Ea → Ea + emn ≤ emx - prc →
  mz * 2 ^ (e - emn) ≤ ma * 2 ^ Ea →
  binary_round_aux prc emx s mz e loc_Exact = S754_zero s ∨
  ∃ m e',
    binary_round_aux prc emx s mz e loc_Exact = S754_finite s m e' ∧
    emn ≤ e' ∧ Z.pos m * 2 ^ (e' - emn) ≤ ma * 2 ^ Ea.
Proof.
  intros Hmz He Hal Hma Hca Hbound Hle.
  unfold binary_round_aux.
  (* first shift and rounding *)
  assert (Hfirst : ∃ mrs' E',
    shr_fexp prc emx mz e loc_Exact = (mrs', E' + emn) ∧ 0 ≤ E' ∧ E' ≤ Ea ∧
    0 ≤ round_nearest_even (shr_m mrs') (loc_of_shr_record mrs') ∧
    round_nearest_even (shr_m mrs') (loc_of_shr_record mrs') * 2 ^ E'
      ≤ ma * 2 ^ Ea).
  { destruct (ceil_le ma Ea mz (e - emn) Hma Hca Hmz ltac:(lia) Hal Hle)
      as (HEa & Hfloor & Hceil).
    destruct (shr_fexp_exact mz e ltac:(lia) He)
      as [[Hno Hs]|(Hlt & mrs & Hs & Hq & Hloc)].
    - exists {| shr_m := mz; shr_r := false; shr_s := false |}, (e - emn).
      rewrite Hs. cbn [shr_m loc_of_shr_record round_nearest_even].
      split; [f_equal; lia|]. split; [lia|]. split; [lia|].
      split; [lia|exact Hle].
    - exists mrs, (sexp prc (Zdigits2 mz + (e - emn))).
      split; [exact Hs|]. split; [lia|]. split; [exact HEa|].
      pose proof (round_nearest_even_bounds (shr_m mrs)
                    (loc_of_shr_record mrs)) as [[Hlo Hhi] Hex].
      assert (Hq0 : 0 ≤ shr_m mrs).
      { rewrite Hq. apply Z.div_pos; [lia|].
        apply Z.pow_pos_nonneg; lia. }
      split; [lia|].
      assert (P : 0 < 2 ^ sexp prc (Zdigits2 mz + (e - emn)))
        by (apply Z.pow_pos_nonneg; lia).
      destruct Hloc as [Hexact|Hmod].
      + rewrite (Hex Hexact), Hq. exact Hfloor.
      + specialize (Hceil Hmod). rewrite <- Hq in Hceil. nia. }
  destruct Hfirst as (mrs' & E' & -> & HE' & HEa' & Hm'0 & Hm').
  set (m' := round_nearest_even (shr_m mrs') (loc_of_shr_record mrs')) in *.
  (* second shift *)
  assert (Hsecond : ∃ mrs'' E'',
    shr_fexp prc emx m' (E' + emn) loc_Exact = (mrs'', E'' + emn) ∧
    0 ≤ E'' ∧ E'' ≤ Ea ∧ 0 ≤ shr_m mrs'' ∧
    shr_m mrs'' * 2 ^ E'' ≤ ma * 2 ^ Ea).
  { destruct (shr_fexp_exact m' (E' + emn) Hm'0 ltac:(lia))
      as [[_ Hs]|(Hlt & mrs & Hs & Hq & _)];
      replace (E' + emn - emn) with E' in * by lia.
    - exists {| shr_m := m'; shr_r := false; shr_s := false |}, E'.
      rewrite Hs. cbn [shr_m]. repeat split; auto; lia.
    - assert (Hm'pos : 0 < m').
      { destruct (Z.eq_dec m' 0) as [H0|H0]; [|lia].
        rewrite H0 in Hlt. cbn [Zdigits2] in Hlt. unfold sexp in Hlt. lia. }
      destruct (ceil_le ma Ea m' E' Hma Hca Hm'pos HE' ltac:(lia) Hm')
        as (HEa'' & Hfloor & _).
      exists mrs, (sexp prc (Zdigits2 m' + E')).
      split; [exact Hs|]. split; [lia|]. split; [exact HEa''|].
      rewrite Hq. split; [|exact Hfloor].
      apply Z.div_pos; [lia|]. apply Z.pow_pos_nonneg; lia. }
  destruct Hsecond as (mrs'' & E'' & -> & HE'' & HEa'' & H0 & Hv'').
  destruct (shr_m mrs'') as [|m|m] eqn:Em; try lia; [now left|].
  right. replace (E'' + emn <=? emx - prc) with true
    by (symmetry; apply Z.leb_le; lia).
  exists m, (E'' + emn). split; [reflexivity|]. split; [lia|].
  replace (E'' + emn - emn) with E'' by lia. exact Hv''.
Qed.

(** *** [binary_round]: alignment first *)

Lemma iter_xO_spec (m d : positive) :
  Z.pos (Pos.iter xO m d) = Z.pos m * 2 ^ Z.pos d ∧
  Z.pos (digits2_pos (Pos.iter xO m d)) = Z.pos (digits2_pos m) + Z.pos d.
Proof.
  apply (Pos.iter_ind _ xO m
           (λ d x, Z.pos x = Z.pos m * 2 ^ Z.pos d ∧
                   Z.pos (digits2_pos x) = Z.pos (digits2_pos m) + Z.pos d)).
  - cbn [digits2_pos]. rewrite Pos2Z.inj_succ. split; lia.
  - intros p x [Hx Hd]. cbn [digits2_pos].
    rewrite !Pos2Z.inj_succ, Z.pow_succ_r by lia. split; lia.
Qed.

Lemma shl_align_spec (m : positive) (e t : Z) :
  ∃ mz,
    shl_align m e t = (mz, Z.min e t) ∧
    Z.pos mz = Z.pos m * 2 ^ (e - Z.min e t) ∧
    Z.pos (digits2_pos mz) + Z.min e t = Z.pos (digits2_pos m) + e.
Proof.
  unfold shl_align. destruct (t - e) as [|d|d] eqn:Ed.
  - exists m. replace (Z.min e t) with e by lia.
    rewrite Z.sub_diag. split; [reflexivity|]. split; lia.
  - exists m. replace (Z.min e t) with e by lia.
    rewrite Z.sub_diag. split; [reflexivity|]. split; lia.
  - exists (Pos.iter xO m d). replace (Z.min e t) with t by lia.
    destruct (iter_xO_spec m d) as [Hv Hd].
    replace (e - t) with (Z.pos d) by lia.
    split; [reflexivity|]. split; [exact Hv|lia].
Qed.

Lemma binary_round_aligned (N : positive) (e : Z) :
  emn ≤ e →
  ∃ mz ez,
    shl_align N e (SpecFloat.fexp prc emx (Z.pos (digits2_pos N) + e))
      = (mz, ez) ∧
    emn ≤ ez ∧
    ez - emn ≤ sexp prc (Zdigits2 (Z.pos mz) + (ez - emn)) ∧
    Z.pos mz * 2 ^ (ez - emn) = Z.pos N * 2 ^ (e - emn).
Proof.
  intros He.
  set (t := SpecFloat.fexp prc emx (Z.pos (digits2_pos N) + e)).
  destruct (shl_align_spec N e t) as (mz & Hs & Hv & Hd).
  assert (Ht : t = sexp prc (Z.pos (digits2_pos N) + (e - emn)) + emn).
  { unfold t.
    replace (Z.pos (digits2_pos N) + e)
      with (Z.pos (digits2_pos N) + ((e - emn) + emn)) by lia.
    apply fexp_sexp. }
  assert (Htmin : emn ≤ t) by (rewrite Ht; unfold sexp; lia).
  exists mz, (Z.min e t). split; [exact Hs|]. split; [lia|]. split.
  - cbn [Zdigits2].
    replace (Z.pos (digits2_pos mz) + (Z.min e t - emn))
      with (Z.pos (digits2_pos N) + (e - emn)) by lia.
    lia.
  - rewrite Hv, <- Z.mul_assoc, <- Z.pow_add_r by lia.
    f_equal. f_equal. lia.
Qed.

Lemma binary_round_lower (s : bool) (N : positive) (e ma Ea : Z) :
  emn ≤ e → 0 < ma → canon prc ma Ea →
  ma * 2 ^ Ea ≤ Z.pos N * 2 ^ (e - emn) →
  binary_round prc emx s N e = S754_infinity s ∨
  ∃ m e',
    binary_round prc emx s N e = S754_finite s m e' ∧
    emn ≤ e' ∧ ma * 2 ^ Ea ≤ Z.pos m * 2 ^ (e' - emn).
Proof.
  intros He Hma Hca Hle. unfold binary_round.
  destruct (binary_round_aligned N e He) as (mz & ez & -> & Hez & Hal & Hv).
  apply binary_round_aux_lower; auto; lia.
Qed.

Lemma binary_round_upper (s : bool) (N : positive) (e ma Ea : Z) :
  emn ≤ e → 0 < ma → canon prc ma Ea → Ea + emn ≤ emx - prc →
  Z.pos N * 2 ^ (e - emn) ≤ ma * 2 ^ Ea →
  binary_round prc emx s N e = S754_zero s ∨
  ∃ m e',
    binary_round prc emx s N e = S754_finite s m e' ∧
    emn ≤ e' ∧ Z.pos m * 2 ^ (e' - emn) ≤ ma * 2 ^ Ea.
Proof.
  intros He Hma Hca Hb Hle. unfold binary_round.
  destruct (binary_round_aligned N e He) as (mz & ez & -> & Hez & Hal & Hv).
  apply binary_round_aux_upper; auto; lia.
Qed.

(** Whatever the arguments, the sign of a rounded value is the sign given. *)
Lemma binary_round_aux_sign (s : bool) (m e : Z) (l : location) :
  binary_round_aux prc emx s m e l = S754_nan ∨
  binary_round_aux prc emx s m e l = S754_zero s ∨
  binary_round_aux prc emx s m e l = S754_infinity s ∨
  ∃ m' e', binary_round_aux prc emx s m e l = S754_finite s m' e'.
Proof.
  unfold binary_round_aux.
  destruct (shr_fexp prc emx m e l) as [mrs' e'].
  destruct (shr_fexp prc emx _ e' loc_Exact) as [mrs'' e''].
  destruct (shr_m mrs'') as [|p|p].
  - right. now left.
  - destruct (e'' <=? emx - prc).
    + right. right. right. now exists p, e''.
    + right. right. now left.
  - now left.
Qed.

(** *** Order of canonical values *)

Lemma canon_compare (m1 E1 m2 E2 : Z) :
  0 < m1 → 0 < m2 → canon prc m1 E1 → canon prc m2 E2 →
  m1 * 2 ^ E1 ≤ m2 * 2 ^ E2 →
  E1 < E2 ∨ (E1 = E2 ∧ m1 ≤ m2).
Proof.
  intros H1 H2 C1 C2 Hle.
  destruct (canon_digits _ _ C1) as [D1 HE1].
  destruct (canon_digits _ _ C2) as [D2 HE2].
  destruct (Z_lt_le_dec E1 E2) as [Hlt|Hge]; [now left|right].
  destruct (Z.eq_dec E1 E2) as [Heq|Hne].
  - split; [exact Heq|]. subst E2.
    assert (0 < 2 ^ E1) by (apply Z.pow_pos_nonneg; lia). nia.
  - exfalso.
    assert (Hd1 : Zdigits2 m1 = prc) by (unfold canon, sexp in C1; lia).
    pose proof (Zdigits2_bounds m1 H1) as [B1 _].
    pose proof (Zdigits2_bounds m2 H2) as [_ B2].
    pose proof (Zdigits2_pos m2 H2) as P2.
    rewrite Hd1 in B1.
    assert (L1 : 2 ^ (prc - 1 + E1) ≤ m1 * 2 ^ E1).
    { rewrite Z.pow_add_r by lia.
      assert (0 < 2 ^ E1) by (apply Z.pow_pos_nonneg; lia). nia. }
    assert (L2 : m2 * 2 ^ E2 < 2 ^ (prc + E2)).
    { rewrite Z.pow_add_r by lia.
      assert (0 < 2 ^ E2) by (apply Z.pow_pos_nonneg; lia).
      assert (2 ^ Zdigits2 m2 ≤ 2 ^ prc) by (apply Z.pow_le_mono_r; lia).
      nia. }
    assert (L3 : 2 ^ (prc + E2) ≤ 2 ^ (prc - 1 + E1))
      by (apply Z.pow_le_mono_r; lia).
    lia.
Qed.

Lemma bounded_canon (m : positive) (e : Z) :
  bounded prc emx m e = true →
  canon prc (Z.pos m) (e - emn) ∧ emn ≤ e ∧ e ≤ emx - prc.
Proof.
  unfold bounded, canonical_mantissa. intros Hb.
  apply andb_prop in Hb as [Hc Hle].
  apply Z.eqb_eq in Hc. apply Z.leb_le in Hle.
  assert (Hc' : Z.max (Z.pos (digits2_pos m) + e - prc) emn = e) by exact Hc.
  assert (Hle' : e ≤ emx - prc) by exact Hle.
  unfold canon, sexp. cbn [Zdigits2]. lia.
Qed.

Lemma SFleb_finite_pos (m1 : positive) (e1 : Z) (m2 : positive) (e2 : Z) :
  bounded prc emx m1 e1 = true → bounded prc emx m2 e2 = true →
  Z.pos m1 * 2 ^ (e1 - emn) ≤ Z.pos m2 * 2 ^ (e2 - emn) →
  SFleb (S754_finite false m1 e1) (S754_finite false m2 e2) = true.
Proof.
  intros B1 B2 Hle.
  destruct (bounded_canon _ _ B1) as (C1 & _ & _).
  destruct (bounded_canon _ _ B2) as (C2 & _ & _).
  unfold SFleb, SFcompare.
  destruct (canon_compare (Z.pos m1) (e1 - emn) (Z.pos m2) (e2 - emn)
              ltac:(lia) ltac:(lia) C1 C2 Hle)
    as [Hlt|[Heq Hm]].
  - replace (e1 ?= e2) with Lt by (symmetry; apply Z.compare_lt_iff; lia).
    reflexivity.
  - replace (e1 ?= e2) with Eq by (symmetry; apply Z.compare_eq_iff; lia).
    change (Pos.compare_cont Eq m1 m2) with (Pos.compare m1 m2).
    destruct (Pos.compare_spec m1 m2); try reflexivity. lia.
Qed.

Lemma SFleb_finite_neg (m1 : positive) (e1 : Z) (m2 : positive) (e2 : Z) :
  bounded prc emx m1 e1 = true → bounded prc emx m2 e2 = true →
  Z.pos m2 * 2 ^ (e2 - emn) ≤ Z.pos m1 * 2 ^ (e1 - emn) →
  SFleb (S754_finite true m1 e1) (S754_finite true m2 e2) = true.
Proof.
  intros B1 B2 Hle.
  destruct (bounded_canon _ _ B1) as (C1 & _ & _).
  destruct (bounded_canon _ _ B2) as (C2 & _ & _).
  unfold SFleb, SFcompare.
  destruct (canon_compare (Z.pos m2) (e2 - emn) (Z.pos m1) (e1 - emn)
              ltac:(lia) ltac:(lia) C2 C1 Hle)
    as [Hlt|[Heq Hm]].
  - replace (e1 ?= e2) with Gt by (symmetry; apply Z.compare_gt_iff; lia).
    reflexivity.
  - replace (e1 ?= e2) with Eq by (symmetry; apply Z.compare_eq_iff; lia).
    change (Pos.compare_cont Eq m1 m2) with (Pos.compare m1 m2).
    destruct (Pos.compare_spec m1 m2); try reflexivity. lia.
Qed.

(** *** Adding a value that is not negative *)

Lemma SFleb_refl (a : spec_float) : a ≠ S754_nan → SFleb a a = true.
Proof.
  intros Hn. destruct a as [s|s| |s m e]; try congruence.
  - reflexivity.
  - now destruct s.
  - unfold SFleb, SFcompare. rewrite Z.compare_refl.
    change (Pos.compare_cont Eq m m) with (Pos.compare m m).
    rewrite Pos.compare_refl. now destruct s.
Qed.

Lemma SFadd_not_negative (a x : spec_float) :
  SpecFloat.valid_binary prc emx a = true →
  SpecFloat.valid_binary prc emx x = true →
  SpecFloat.valid_binary prc emx (SFadd prc emx a x) = true →
  a ≠ S754_nan →
  not_negative x →
  SFadd prc emx a x = S754_nan ∨ SFleb a (SFadd prc emx a x) = true.
Proof.
  intros Va Vx Vy Ha Hx.
  destruct x as [sx|sx| |sx mx ex]; cbn in Hx; try subst sx.
  - (* zero *)
    right. destruct a as [sa|sa| |sa ma ea]; try congruence.
    + now destruct sa, sx.
    + now destruct sa.
    + now apply SFleb_refl.
  - (* plus infinity *)
    destruct a as [sa|sa| |sa ma ea]; try congruence.
    + now right.
    + destruct sa; [now left|now right].
    + right. now destruct sa.
  - left. now destruct a.
  - (* a positive number *)
    destruct a as [sa|sa| |sa ma ea]; try congruence.
    + now right.
    + right. now destruct sa.
    + cbn [SpecFloat.valid_binary] in Va, Vx.
      destruct (bounded_canon _ _ Va) as (Ca & Hea & Hea').
      destruct (bounded_canon _ _ Vx) as (Cx & Hex & _).
      revert Vy. unfold SFadd.
      destruct (shl_align_spec ma ea (Z.min ea ex)) as (A & -> & HA & _).
      destruct (shl_align_spec mx ex (Z.min ea ex)) as (X & -> & HX & _).
      cbn [fst].
      replace (Z.min ea (Z.min ea ex)) with (Z.min ea ex) in HA by lia.
      replace (Z.min ex (Z.min ea ex)) with (Z.min ea ex) in HX by lia.
      set (ez := Z.min ea ex) in *.
      assert (Hez : emn ≤ ez) by (unfold ez; lia).
      assert (HVa : Z.pos A * 2 ^ (ez - emn) = Z.pos ma * 2 ^ (ea - emn)).
      { rewrite HA, <- Z.mul_assoc, <- Z.pow_add_r by lia.
        f_equal. f_equal. lia. }
      assert (P : 0 < 2 ^ (ez - emn)) by (apply Z.pow_pos_nonneg; lia).
      destruct sa; cbn [cond_Zopp].
      * (* a negative *)
        destruct (- Z.pos A + Z.pos X) as [|p|p] eqn:Esum;
          cbn [binary_normalize]; intros Vy.
        -- now right.
        -- unfold binary_round.
           destruct (shl_align p ez _) as [mz ez'].
           destruct (binary_round_aux_sign false (Z.pos mz) ez' loc_Exact)
             as [->|[->|[->|(m' & e' & ->)]]]; auto.
        -- destruct (binary_round_upper true p ez (Z.pos ma) (ea - emn)
                       Hez ltac:(lia) Ca ltac:(lia))
             as [Hr|(m' & e' & Hr & He' & Hv)].
           ++ rewrite <- HVa. nia.
           ++ rewrite Hr. now right.
           ++ rewrite Hr in Vy |- *. right.
              apply SFleb_finite_neg; auto.
      * (* a positive *)
        change (Z.pos A + Z.pos X) with (Z.pos (A + X)).
        cbn [binary_normalize]. intros Vy.
        destruct (binary_round_lower false (A + X) ez (Z.pos ma) (ea - emn)
                    Hez ltac:(lia) Ca)
          as [Hr|(m' & e' & Hr & He' & Hv)].
        -- rewrite <- HVa, Pos2Z.inj_add. nia.
        -- rewrite Hr. now right.
        -- rewrite Hr in Vy |- *. right.
           apply SFleb_finite_pos; auto.
Qed.

(** A product with a positive number keeps the sign. *)
Lemma SFmul_not_negative (s : spec_float) (m : positive) (e : Z) :
  not_negative s →
  not_negative (SFmul prc emx s (S754_finite false m e)).
Proof.
  intros Hs. destruct s as [ss|ss| |ss ms es]; cbn [not_negative] in Hs;
    try subst ss; cbn [SFmul xorb].
  - exact I.
  - reflexivity.
  - exact I.
  - destruct (binary_round_aux_sign false (Z.pos (ms * m)) (es + e)
                loc_Exact) as [->|[->|[->|(m' & e' & ->)]]];
      cbn [not_negative]; auto.
Qed.

End Rounding.

(** *** One step of a region's level, binary64 *)

Lemma not_negative_of_leb (s : float) :
  PrimFloat.leb 0 s = true → not_negative (Prim2SF s).
Proof.
  rewrite leb_spec. change (Prim2SF 0) with (S754_zero false).
  destruct (Prim2SF s) as [ss|ss| |ss ms es]; cbn; auto.
  - now destruct ss.
  - now destruct ss.
Qed.

Lemma binary64_step_monotone (a s : float) :
  float_le a 1 →
  float_le 0 s →
  float_le a (py_min (F := float) lit_1_0 (fadd a (fmul s lit_0_1))).
Proof.
  unfold float_le. intros Ha Hs.
  change (PrimFloat.leb a
            (if PrimFloat.ltb (a + s * 0.1) 1 then a + s * 0.1 else 1)
          = true).
  destruct (PrimFloat.ltb (a + s * 0.1) 1) eqn:Hlt; [|exact Ha].
  rewrite leb_spec in Ha |- *. rewrite ltb_spec in Hlt.
  rewrite add_spec in Hlt |- *.
  destruct (SFadd_not_negative prec emax ltac:(reflexivity)
              (Prim2SF a) (Prim2SF (s * 0.1))) as [Hnan|Hle].
  - apply Prim2SF_valid.
  - apply Prim2SF_valid.
  - fold SF64add. rewrite <- add_spec. apply Prim2SF_valid.
  - intros Hn. rewrite Hn in Ha. discriminate Ha.
  - rewrite mul_spec.
    assert (E : Prim2SF 0.1 =
                S754_finite false 7205759403792794 (-56))
      by (vm_compute; reflexivity).
    rewrite E. apply SFmul_not_negative. now apply not_negative_of_leb.
  - unfold SF64add in Hlt. rewrite Hnan in Hlt. discriminate Hlt.
  - exact Hle.
Qed.


(** ** Activity level along a sequence of calls *)

Section ActivityLevel.

Lemma activity_levels_run {F : Type} `{Arith F}
  (inputs : list (NeuralSignal F)) :
  ∀ (h : Heap F) (self : ref) c a,
    nodes h !! self = Some c →
    activity_level c = Some a →
    ∃ h', activity_levels self inputs h = Some (activity_scan a inputs, h').
Proof.
  induction inputs as [|g rest IH]; intros h self c a Hc Ha.
  - exists h. cbn. unfold bind, get_node. rewrite Hc. cbn. now rewrite Ha.
  - assert (Hlt : self < length (nodes h)) by (eapply lookup_lt_Some; eauto).
    cbn. unfold bind at 1, get_node at 1. rewrite Hc.
    unfold bind at 1. rewrite Ha. cbn.
    unfold bind at 1. unfold new_NeuralSignal, alloc_signal.
    unfold bind at 1.
    erewrite process_signal_run; [|exact Hc|apply lookup_last].
    set (g' := {| signal_type := signal_type g; strength := strength g;
                  data := data g |}).
    destruct (IH {| nodes := <[self:=node_after c g']> (nodes h);
                    signals := (signals h ++ [g']) ++ [output_signal c g'] |}
                 self (node_after c g')
                 (py_min lit_1_0 (fadd a (fmul (strength g) lit_0_1))))
      as (h' & Hrun).
    + cbn. now apply list_lookup_insert_eq.
    + unfold node_after. rewrite Ha. subst g'. cbn.
      unfold activity_level, with_activity_level in *. cbn.
      destruct (variant c); congruence.
    + exists h'. cbn [nodes signals]. now rewrite Hrun.
Qed.

Lemma Qltb_true (x y : Q) : Qltb x y = true → (x <= y)%Q.
Proof.
  unfold Qltb. destruct (x ?= y)%Q eqn:E; try discriminate.
  intros _. apply Qlt_le_weak. now apply Qlt_alt.
Qed.

Lemma Qltb_false (x y : Q) : Qltb x y = false → (y <= x)%Q.
Proof.
  unfold Qltb. destruct (x ?= y)%Q eqn:E; try discriminate; intros _.
  - apply Qeq_alt in E. rewrite E. apply Qle_refl.
  - apply Qlt_le_weak. now apply Qgt_alt.
Qed.

(** The cap of [min(1.0, x)], exact arithmetic. *)
Lemma py_min_exact_cap (x : Q) : (py_min (F := Q) lit_1_0 x <= 1)%Q.
Proof.
  unfold py_min. cbn. destruct (Qltb x 1) eqn:E.
  - apply Qltb_true in E. exact E.
  - discriminate.
Qed.

Lemma py_min_exact_lower (a x : Q) :
  (a <= 1)%Q → (a <= x)%Q → (a <= py_min (F := Q) lit_1_0 x)%Q.
Proof.
  intros H1 Hx. unfold py_min. cbn. now destruct (Qltb x 1).
Qed.

(** The cap of [min(1.0, x)], binary64: also for infinities and NaN. *)
Lemma py_min_binary64_cap (x : float) :
  float_le (py_min (F := float) lit_1_0 x) 1.
Proof.
  unfold py_min, float_le. cbn. destruct (PrimFloat.ltb x 1) eqn:E.
  - rewrite ltb_spec in E. rewrite leb_spec.
    unfold SFltb in E. unfold SFleb.
    destruct (SFcompare (Prim2SF x) (Prim2SF 1)) as [[]|]; congruence.
  - reflexivity.
Qed.

Lemma activity_scan_head {F : Type} `{Arith F} (a : F) inputs :
  activity_scan a inputs !! 0 = Some a.
Proof. now destruct inputs. Qed.

Lemma activity_scan_length {F : Type} `{Arith F} inputs :
  ∀ a : F, length (activity_scan a inputs) = S (length inputs).
Proof.
  induction inputs as [|g rest IH]; intros a; cbn; [reflexivity|].
  now rewrite IH.
Qed.

(** Whatever holds of every [min(1.0, x)] holds of every level reached by a
    call. *)
Lemma activity_scan_capped {F : Type} `{Arith F} (P : F → Prop) :
  (∀ x, P (py_min lit_1_0 x)) →
  ∀ inputs a, Forall P (tail (activity_scan a inputs)).
Proof.
  intros HP. induction inputs as [|g rest IH]; intros a; cbn.
  - constructor.
  - specialize (IH (py_min lit_1_0 (fadd a (fmul (strength g) lit_0_1)))).
    destruct rest as [|g' rest']; cbn in *.
    + constructor; [apply HP | constructor].
    + constructor; [apply HP | exact IH].
Qed.

Lemma activity_scan_exact_monotone (inputs : list (NeuralSignal Q)) :
  ∀ a : Q,
    (a <= 1)%Q →
    Forall (λ g, 0 <= strength g)%Q inputs →
    nondecreasing Qle (activity_scan a inputs).
Proof.
  induction inputs as [|g rest IH]; intros a Ha Hpos i x y Hx Hy.
  - destruct i; discriminate.
  - inversion Hpos as [|? ? Hg Hrest]; subst.
    set (a' := py_min lit_1_0 (fadd a (fmul (strength g) lit_0_1))).
    change (activity_scan a (g :: rest)) with (a :: activity_scan a' rest)
      in Hx, Hy.
    destruct i as [|j].
    + change (Some a = Some x) in Hx. inversion Hx; subst x.
      change (activity_scan a' rest !! 0 = Some y) in Hy.
      rewrite activity_scan_head in Hy. inversion Hy; subst y.
      apply py_min_exact_lower; [exact Ha|]. cbn. lra.
    + change (activity_scan a' rest !! j = Some x) in Hx.
      change (activity_scan a' rest !! S j = Some y) in Hy.
      eapply (IH a'); eauto. apply py_min_exact_cap.
Qed.

Lemma activity_scan_binary64_monotone
  (inputs : list (NeuralSignal float)) :
  ∀ a : float,
    float_le a 1 →
    Forall (λ g, float_le 0 (strength g)) inputs →
    nondecreasing float_le (activity_scan a inputs).
Proof.
  induction inputs as [|g rest IH]; intros a Ha Hpos i x y Hx Hy.
  - destruct i; discriminate.
  - inversion Hpos as [|? ? Hg Hrest]; subst.
    set (a' := py_min (F := float) lit_1_0
                 (fadd a (fmul (strength g) lit_0_1))).
    change (activity_scan a (g :: rest)) with (a :: activity_scan a' rest)
      in Hx, Hy.
    destruct i as [|j].
    + change (Some a = Some x) in Hx. inversion Hx; subst x.
      change (activity_scan a' rest !! 0 = Some y) in Hy.
      rewrite activity_scan_head in Hy. inversion Hy; subst y.
      now apply binary64_step_monotone.
    + change (activity_scan a' rest !! j = Some x) in Hx.
      change (activity_scan a' rest !! S j = Some y) in Hy.
      eapply (IH a'); eauto. apply py_min_binary64_cap.
Qed.

(** C4, as the code has it.  Along any sequence of [process_signal] calls on
    a region, in binary64: every activity level reached by a call is at most
    1.0, for any strengths and any number of calls, infinities and NaN
    included; and when the level starts at most 1.0 and every input strength
    is at least 0.0 (which excludes NaN), the levels never decrease,
    roundings included.  The second part states the same in exact
    arithmetic. *)
Theorem activity_level_capped_and_monotone :
  (∀ (h : Heap float) (self : ref) c a (inputs : list (NeuralSignal float)),
     nodes h !! self = Some c →
     activity_level c = Some a →
     ∃ levels h',
       activity_levels self inputs h = Some (levels, h') ∧
       length levels = S (length inputs) ∧
       Forall (λ x, float_le x 1) (tail levels) ∧
       (float_le a 1 →
        Forall (λ g, float_le 0 (strength g)) inputs →
        nondecreasing float_le levels))
  ∧
  (∀ (h : Heap Q) (self : ref) c a (inputs : list (NeuralSignal Q)),
     nodes h !! self = Some c →
     activity_level c = Some a →
     ∃ levels h',
       activity_levels self inputs h = Some (levels, h') ∧
       length levels = S (length inputs) ∧
       Forall (λ x, x <= 1)%Q (tail levels) ∧
       ((a <= 1)%Q →
        Forall (λ g, 0 <= strength g)%Q inputs →
        nondecreasing Qle levels)).
Proof.
  split; intros h self c a inputs Hc Ha;
    destruct (activity_levels_run inputs h self c a Hc Ha) as (h' & Hrun);
    exists (activity_scan a inputs), h';
    (split; [exact Hrun|]); (split; [apply activity_scan_length|]).
  - split.
    + apply (activity_scan_capped (λ x, float_le x 1)).
      apply py_min_binary64_cap.
    + intros Ha1 Hpos. now apply activity_scan_binary64_monotone.
  - split.
    + apply (activity_scan_capped (λ x, x <= 1)%Q). apply py_min_exact_cap.
    + intros Ha1 Hpos. now apply activity_scan_exact_monotone.
Qed.

Lemma activity_level_capped_and_monotone_witness :
  ∃ levels h',
    activity_levels 1
      [{| signal_type := "motor_command"; strength := 0.8%float;
          data := PyStr "move_right_hand" |};
       {| signal_type := "motor_command"; strength := 25%float;
          data := PyNone |};
       {| signal_type := "motor_command"; strength := 0.3%float;
          data := PyNone |}]
      (example_heap (F := float)) = Some (levels, h') ∧
    levels = [0%float; 0.08000000000000002%float; 1%float; 1%float] ∧
    Forall (λ x, float_le x 1) (tail levels) ∧
    nondecreasing float_le levels.
Proof.
  destruct (proj1 activity_level_capped_and_monotone
              (example_heap (F := float)) 1 _ _
              [{| signal_type := "motor_command"; strength := 0.8%float;
                  data := PyStr "move_right_hand" |};
               {| signal_type := "motor_command"; strength := 25%float;
                  data := PyNone |};
               {| signal_type := "motor_command"; strength := 0.3%float;
                  data := PyNone |}] eq_refl eq_refl)
    as (levels & h' & Hrun & _ & Hcap & Hmono).
  exists levels, h'. split; [exact Hrun|]. split.
  - vm_compute in Hrun. injection Hrun as <- _. reflexivity.
  - split; [exact Hcap|]. apply Hmono.
    + reflexivity.
    + repeat constructor.
Defined.

(** C4 as stated fails: a signal of negative strength lowers the activity
    level, here from 0.0 to -0.1 on a fresh region, in binary64 and in exact
    arithmetic alike. *)
Lemma activity_level_decreases_on_negative_strength :
  (∃ levels h',
     activity_levels 1
       [{| signal_type := "motor_command"; strength := (-1.0)%float;
           data := PyNone |}]
       (example_heap (F := float)) = Some (levels, h') ∧
     levels = [0.0%float; (-0.1)%float] ∧
     ¬ nondecreasing float_le levels)
  ∧
  (∃ levels h',
     activity_levels 1
       [{| signal_type := "motor_command"; strength := (-1)%Q;
           data := PyNone |}]
       (example_heap (F := Q)) = Some (levels, h') ∧
     ¬ nondecreasing Qle levels).
Proof.
  split.
  - eexists. eexists. split; [vm_compute; reflexivity|].
    split; [reflexivity|].
    intros Hn. specialize (Hn 0 _ _ eq_refl eq_refl).
    vm_compute in Hn. discriminate.
  - eexists. eexists. split; [vm_compute; reflexivity|].
    intros Hn. specialize (Hn 0 _ _ eq_refl eq_refl).
    vm_compute in Hn. now apply Hn.
Qed.

End ActivityLevel.

(** ** Walks in a finite graph without cycles *)

Section Walks.
Variable R : relation nat.
Variables bound start : nat.
Hypothesis targets_bounded : ∀ a b, R a b → b < bound.
Hypothesis no_cycle : acyclic_from R start.

Lemma on_walk_start : start < bound → on_walk R bound start [] start.
Proof.
  intros Hlt. split; [apply rtc_refl|]. split; [exact Hlt|].
  split; [apply NoDup_singleton|]. split; [constructor|].
  intros v Hv. inversion Hv.
Qed.

Lemma on_walk_step visited n p :
  on_walk R bound start visited n → R n p →
  on_walk R bound start (n :: visited) p.
Proof.
  intros (Hreach & Hn & Hnd & Hall & Hto) Hnp.
  assert (Hreach' : rtc R start p) by (eapply rtc_r; eauto).
  assert (Hto' : ∀ v, v ∈ n :: visited → tc R v p).
  { intros v Hv. apply elem_of_cons in Hv as [->|Hv].
    - now apply tc_once.
    - eapply tc_r; eauto. }
  split; [exact Hreach'|]. split; [eapply targets_bounded; eauto|].
  split; [|split; [constructor; assumption | exact Hto']].
  apply NoDup_cons. split; [|exact Hnd].
  intros Hin. apply (no_cycle p Hreach'). now apply Hto'.
Qed.

(** Pigeonhole: a walk without repetition stays shorter than the bound. *)
Lemma on_walk_length visited n :
  on_walk R bound start visited n → length visited < bound.
Proof.
  intros (_ & Hn & Hnd & Hall & _).
  assert (Hsub : n :: visited ⊆+ seq 0 bound).
  { apply NoDup_submseteq; [exact Hnd|].
    intros x Hx. apply elem_of_seq.
    apply elem_of_cons in Hx as [->|Hx]; [lia|].
    rewrite Forall_forall in Hall. specialize (Hall x Hx). lia. }
  apply submseteq_length in Hsub. rewrite length_seq in Hsub.
  cbn in Hsub. lia.
Qed.

End Walks.

Lemma decreasing_acyclic (R : relation nat) :
  (∀ a b, R a b → b < a) → acyclic R.
Proof.
  intros Hdec.
  assert (Htc : ∀ a b, tc R a b → b < a).
  { intros a b Hab. induction Hab as [a b Hab|a b c Hab _ IH].
    - now apply Hdec.
    - apply Hdec in Hab. lia. }
  intros m Hm. apply Htc in Hm. lia.
Qed.

Lemma acyclic_acyclic_from (R : relation nat) start :
  acyclic R → acyclic_from R start.
Proof. intros Hac m _. apply Hac. Qed.

Lemma targets_before_sound {F : Type} (edges : Component F → list nat)
  (h : Heap F) :
  targets_before edges h = true →
  ∀ n c t, nodes h !! n = Some c → t ∈ edges c → t < n.
Proof.
  unfold targets_before. rewrite forallb_forall.
  intros Hall n c t Hc Ht.
  specialize (Hall (n, c)). cbn in Hall.
  rewrite forallb_forall in Hall.
  apply Nat.ltb_lt. apply Hall.
  - apply list_elem_of_In. apply elem_of_lookup_imap. eauto.
  - now apply list_elem_of_In.
Qed.

Lemma parents_before_sound {F : Type} (h : Heap F) :
  targets_before (λ c, option_list (parent c)) h = true →
  parents_allocated h ∧ acyclic (parent_of h).
Proof.
  intros Hchk.
  assert (Hdec : ∀ n p, parent_of h n p → p < n).
  { intros n p (c & Hc & Hp).
    apply (targets_before_sound _ h Hchk n c p Hc).
    rewrite Hp. cbn. apply list_elem_of_here. }
  split.
  - intros n p Hnp. pose proof Hnp as (c & Hc & _).
    apply lookup_lt_Some in Hc. apply Hdec in Hnp. lia.
  - now apply decreasing_acyclic.
Qed.

Lemma connections_before_sound {F : Type} (h : Heap F) :
  targets_before connections h = true →
  connections_allocated h ∧ acyclic (connected h).
Proof.
  intros Hchk.
  assert (Hdec : ∀ n t, connected h n t → t < n).
  { intros n t (c & Hc & Ht). eapply targets_before_sound; eauto. }
  split.
  - intros n t Hnt. pose proof Hnt as (c & Hc & _).
    apply lookup_lt_Some in Hc. apply Hdec in Hnt. lia.
  - now apply decreasing_acyclic.
Qed.

(** ** The tree: [add_child] and [get_path] *)

Section Tree.
Context {F : Type} `{Arith F}.

Lemma add_child_run (h : Heap F) (self child : ref) cs cc :
  self ≠ child →
  nodes h !! self = Some cs →
  nodes h !! child = Some cc →
  add_child self child h =
    Some (tt,
          {| nodes := <[self := with_children (children cs ++ [child]) cs]>
                        (<[child := with_parent (Some self) cc]> (nodes h));
             signals := signals h |}).
Proof.
  intros Hne Hs Hc. unfold add_child, bind, update_node.
  rewrite Hc. cbn. rewrite list_lookup_insert_ne by congruence.
  now rewrite Hs.
Qed.

(** C7, as the code has it.  After [a.add_child(c)] and then
    [b.add_child(c)], for three distinct objects, [c.parent] is [b] and [c]
    is the last entry of [b.children]; [a.children] still ends with [c],
    because [add_child] never removes an entry from a list of children. *)
Theorem add_child_twice (h : Heap F) (a b c : ref) na nb nc :
  a ≠ b → a ≠ c → b ≠ c →
  nodes h !! a = Some na →
  nodes h !! b = Some nb →
  nodes h !! c = Some nc →
  ∃ h' na' nb' nc',
    (run add_child a c; add_child b c) h = Some (tt, h') ∧
    nodes h' !! a = Some na' ∧
    nodes h' !! b = Some nb' ∧
    nodes h' !! c = Some nc' ∧
    parent nc' = Some b ∧
    children nb' = children nb ++ [c] ∧
    children na' = children na ++ [c] ∧
    c ∈ children nb' ∧
    c ∈ children na'.
Proof.
  intros Hab Hac Hbc Ha Hb Hc.
  assert (La : a < length (nodes h)) by (eapply lookup_lt_Some; eauto).
  assert (Lb : b < length (nodes h)) by (eapply lookup_lt_Some; eauto).
  assert (Lc : c < length (nodes h)) by (eapply lookup_lt_Some; eauto).
  eexists. eexists. eexists. eexists.
  split.
  { unfold bind at 1.
    rewrite (add_child_run h a c na nc Hac Ha Hc).
    erewrite (add_child_run _ b c); [reflexivity|exact Hbc| |]; cbn.
    - rewrite list_lookup_insert_ne by congruence.
      rewrite list_lookup_insert_ne by congruence. exact Hb.
    - rewrite list_lookup_insert_ne by congruence.
      apply list_lookup_insert_eq. exact Lc. }
  cbn.
  split.
  { rewrite list_lookup_insert_ne by congruence.
    rewrite list_lookup_insert_ne by congruence.
    apply list_lookup_insert_eq. now rewrite length_insert. }
  split.
  { apply list_lookup_insert_eq. now rewrite !length_insert. }
  split.
  { rewrite list_lookup_insert_ne by congruence.
    apply list_lookup_insert_eq. now rewrite !length_insert. }
  cbn. repeat split; apply elem_of_app; right; apply list_elem_of_singleton;
    reflexivity.
Qed.

Lemma get_path_fuel_mono (h : Heap F) :
  ∀ fuel fuel' n r,
    fuel ≤ fuel' →
    get_path fuel n h = Some r →
    get_path fuel' n h = Some r.
Proof.
  induction fuel as [|fuel IH]; intros fuel' n r Hle Hrun; [discriminate|].
  destruct fuel' as [|fuel']; [lia|].
  cbn in *. unfold bind, get_node in *.
  destruct (nodes h !! n) as [c|]; [|discriminate].
  destruct (parent c) as [p|]; [|exact Hrun].
  destruct (get_path fuel p h) as [[pp h1]|] eqn:E; [|discriminate].
  rewrite (IH fuel' p _ ltac:(lia) E). exact Hrun.
Qed.

(** Along a parent chain without cycle the recursion ends before the fuel
    does, and the heap comes back as it was. *)
Lemma get_path_total (h : Heap F) (start : ref) :
  parents_allocated h →
  acyclic_from (parent_of h) start →
  ∀ fuel visited n,
    on_walk (parent_of h) (length (nodes h)) start visited n →
    length (nodes h) ≤ fuel + length visited →
    ∃ path, get_path fuel n h = Some (path, h).
Proof.
  intros Halloc Hacyc.
  induction fuel as [|fuel IH]; intros visited n Hwalk Hfuel.
  - apply on_walk_length in Hwalk. lia.
  - pose proof Hwalk as (Hreach & Hn & Hrest).
    destruct (lookup_lt_is_Some_2 _ _ Hn) as [c Hc].
    cbn. unfold bind, get_node. rewrite Hc.
    destruct (parent c) as [p|] eqn:Hp; [|eexists; reflexivity].
    assert (Hedge : parent_of h n p) by (exists c; auto).
    destruct (IH (n :: visited) p) as (pp & Hpp).
    + apply on_walk_step; assumption.
    + cbn. lia.
    + rewrite Hpp. eexists. reflexivity.
Qed.

(** C6. For an object whose parent chain has no cycle, [get_path] returns
    once the fuel covers the number of objects, the result does not depend
    on the fuel, and the heap is returned unchanged.  The result is the own
    name when [parent] is [None]; otherwise it is the path of the parent,
    a slash, and the own name. *)
Theorem get_path_spec (h : Heap F) (n : ref) c :
  nodes h !! n = Some c →
  parents_allocated h →
  acyclic_from (parent_of h) n →
  ∃ path,
    (∀ fuel, length (nodes h) ≤ fuel →
             get_path fuel n h = Some (path, h)) ∧
    match parent c with
    | None => path = name c
    | Some p =>
        ∃ parent_path,
          (∀ fuel, length (nodes h) ≤ fuel →
                   get_path fuel p h = Some (parent_path, h)) ∧
          path = parent_path +:+ "/" +:+ name c
    end.
Proof.
  intros Hc Halloc Hacyc.
  assert (Hn : n < length (nodes h)) by (eapply lookup_lt_Some; eauto).
  assert (Htot : ∀ m, m < length (nodes h) →
            acyclic_from (parent_of h) m →
            ∃ path, ∀ fuel, length (nodes h) ≤ fuel →
                            get_path fuel m h = Some (path, h)).
  { intros m Hm Hacm.
    destruct (get_path_total h m Halloc Hacm (length (nodes h)) [] m)
      as (path & Hpath).
    - now apply on_walk_start.
    - cbn. lia.
    - exists path. intros fuel Hfuel.
      eapply get_path_fuel_mono; eauto. }
  destruct (Htot n Hn Hacyc) as (path & Hpath).
  exists path. split; [exact Hpath|].
  destruct (parent c) as [p|] eqn:Hp.
  - assert (Hedge : parent_of h n p) by (exists c; auto).
    destruct (Htot p) as (pp & Hpp).
    + now apply (Halloc n p).
    + intros m Hm. apply Hacyc. eapply rtc_l; eauto.
    + exists pp. split; [exact Hpp|].
      specialize (Hpath (S (length (nodes h))) ltac:(lia)).
      cbn in Hpath. unfold bind, get_node in Hpath.
      rewrite Hc, Hp in Hpath.
      rewrite (Hpp (length (nodes h)) ltac:(lia)) in Hpath.
      now inversion Hpath.
  - specialize (Hpath (S (length (nodes h))) ltac:(lia)).
    cbn in Hpath. unfold bind, get_node in Hpath.
    rewrite Hc, Hp in Hpath. now inversion Hpath.
Qed.

End Tree.

Lemma add_child_twice_witness :
  ∃ h' na' nb' nc',
    (run add_child 0 2; add_child 1 2) (example_heap (F := float)) =
      Some (tt, h') ∧
    nodes h' !! 0 = Some na' ∧
    nodes h' !! 1 = Some nb' ∧
    nodes h' !! 2 = Some nc' ∧
    parent nc' = Some 1 ∧
    children nb' = [2] ∧
    children na' = [2].
Proof.
  destruct (add_child_twice (F := float) example_heap 0 1 2 _ _ _
              ltac:(discriminate) ltac:(discriminate) ltac:(discriminate)
              eq_refl eq_refl eq_refl)
    as (h' & na' & nb' & nc' & Hrun & Ha & Hb & Hc & Hp & Hcb & Hca & _).
  exists h', na', nb', nc'. repeat split; assumption.
Defined.

(** C7 as stated fails: after the two calls the children of the first
    parent still contain the child. *)
Lemma add_child_keeps_old_membership :
  ∃ h' na',
    (run add_child 0 2; add_child 1 2) (example_heap (F := float)) =
      Some (tt, h') ∧
    nodes h' !! 0 = Some na' ∧
    ¬ (2 ∉ children na').
Proof.
  eexists. eexists. split; [vm_compute; reflexivity|].
  split; [reflexivity|]. cbn. intros Hn. apply Hn. apply list_elem_of_here.
Qed.

(** ** [send_signal] *)

Section SendSignal.
Context {F : Type} `{Arith F}.

Lemma for_each_mono {A B} (body1 body2 : A → M F (list B)) (xs : list A) :
  (∀ x h r, body1 x h = Some r → body2 x h = Some r) →
  ∀ h r, for_each xs body1 h = Some r → for_each xs body2 h = Some r.
Proof.
  intros Hbody. induction xs as [|x xs IH]; intros h r Hrun; [exact Hrun|].
  cbn in *. unfold bind in *.
  destruct (body1 x h) as [[ys h1]|] eqn:E1; [|discriminate].
  rewrite (Hbody _ _ _ E1).
  destruct (for_each xs body1 h1) as [[zs h2]|] eqn:E2; [|discriminate].
  now rewrite (IH _ _ E2).
Qed.

(** More fuel never changes a result. *)
Lemma send_signal_fuel_mono :
  ∀ fuel fuel' self signal (h : Heap F) r,
    fuel ≤ fuel' →
    send_signal fuel self signal h = Some r →
    send_signal fuel' self signal h = Some r.
Proof.
  induction fuel as [|fuel IH]; intros fuel' self signal h r Hle Hrun;
    [discriminate|].
  destruct fuel' as [|fuel']; [lia|].
  cbn in *. unfold bind at 1. unfold bind at 1 in Hrun.
  destruct (get_node self h) as [[c h1]|]; [|discriminate].
  revert Hrun. apply for_each_mono. clear h1 r.
  intros t h1 r. unfold bind.
  destruct (get_node t h1) as [[ct h2]|]; [|discriminate].
  destruct (active ct); [|auto].
  destruct (process_signal t signal h2) as [[outs h3]|]; [|discriminate].
  destruct (for_each outs (λ o, send_signal fuel t o) h3)
    as [[nested h4]|] eqn:E; [|discriminate].
  erewrite for_each_mono; [| |exact E]; [auto|].
  intros o h5 r5. apply IH. lia.
Qed.

Lemma same_wiring_length (h0 h : Heap F) :
  same_wiring h0 h → length (nodes h) = length (nodes h0).
Proof.
  intros Hw. unfold same_wiring in Hw.
  apply (f_equal length) in Hw. now rewrite !length_fmap in Hw.
Qed.

Lemma same_wiring_lookup (h0 h : Heap F) n c :
  same_wiring h0 h →
  nodes h !! n = Some c →
  ∃ c0, nodes h0 !! n = Some c0 ∧ wiring c0 = wiring c.
Proof.
  intros Hw Hc. unfold same_wiring in Hw.
  assert (Hl : (wiring <$> nodes h) !! n = Some (wiring c))
.
  { rewrite list_lookup_fmap, Hc. reflexivity. }
  rewrite Hw, list_lookup_fmap in Hl.
  destruct (nodes h0 !! n) as [c0|]; [|discriminate].
  exists c0. split; [reflexivity|]. cbn in Hl. congruence.
Qed.

Lemma node_after_wiring (c : Component F) g :
  wiring (node_after c g) = wiring c.
Proof.
  unfold wiring.
  destruct (node_after_fields c g) as (_ & _ & _ & -> & -> & _).
  reflexivity.
Qed.

Lemma same_wiring_process (h0 h : Heap F) t c g :
  same_wiring h0 h →
  nodes h !! t = Some c →
  same_wiring h0 {| nodes := <[t := node_after c g]> (nodes h);
                    signals := signals h ++ [output_signal c g] |}.
Proof.
  intros Hw Hc. unfold same_wiring in *. cbn.
  rewrite list_fmap_insert, node_after_wiring, <- Hw.
  apply list_insert_id. now rewrite list_lookup_fmap, Hc.
Qed.

Lemma is_active_wiring (h0 h : Heap F) t ct :
  same_wiring h0 h → nodes h !! t = Some ct → is_active h0 t = active ct.
Proof.
  intros Hw Hct.
  destruct (same_wiring_lookup h0 h t ct Hw Hct) as (c0 & Hc0 & Hwc).
  unfold is_active. rewrite Hc0. unfold wiring in Hwc. congruence.
Qed.

(** When no connection cycle is reachable from [start], every
    [send_signal] along a walk from [start] returns, with the calls that
    [Broadcast] describes.  The heap [h] is the current one; [h0] is the heap
    at the start, which has the same connections and flags. *)
Lemma send_signal_total (h0 : Heap F) (start : ref) :
  connections_allocated h0 →
  acyclic_from (connected h0) start →
  ∀ fuel visited n (h : Heap F) signal,
    same_wiring h0 h →
    on_walk (connected h0) (length (nodes h0)) start visited n →
    length (nodes h0) ≤ fuel + length visited →
    signal < length (signals h) →
    ∃ calls h',
      send_signal fuel n signal h = Some (calls, h') ∧
      same_wiring h0 h' ∧
      length (signals h) ≤ length (signals h') ∧
      Broadcast h0 n signal calls.
Proof.
  intros Halloc Hacyc.
  induction fuel as [|fuel IH]; intros visited n h signal Hw Hwalk Hfuel Hsig.
  { apply on_walk_length in Hwalk. lia. }
  pose proof Hwalk as (_ & Hn & _).
  rewrite <- (same_wiring_length h0 h Hw) in Hn.
  destruct (lookup_lt_is_Some_2 _ _ Hn) as [c Hc].
  destruct (same_wiring_lookup h0 h n c Hw Hc) as (c0 & Hc0 & Hwc).
  assert (Hconn : connections c0 = connections c)
    by (unfold wiring in Hwc; congruence).
  cbn. unfold bind at 1, get_node at 1. rewrite Hc.
  set (body := λ connection : nat,
         bind (get_node connection) (λ t : Component F,
           if active t then
             bind (process_signal connection signal) (λ output_signals,
               bind (for_each output_signals
                       (λ output_signal,
                          send_signal fuel connection output_signal))
                    (λ nested,
                       ret [MkCall connection signal output_signals nested]))
           else ret [])).
  assert (Hloop : ∀ cs (h1 : Heap F),
            (∀ t, t ∈ cs → t ∈ connections c) →
            same_wiring h0 h1 →
            signal < length (signals h1) →
            ∃ calls h',
              for_each cs body h1 = Some (calls, h') ∧
              same_wiring h0 h' ∧
              length (signals h1) ≤ length (signals h') ∧
              map call_target calls = List.filter (is_active h0) cs ∧
              Forall (λ k, call_input k = signal ∧
                           ∃ o, call_outputs k = [o] ∧
                                Broadcast h0 (call_target k) o
                                  (call_nested k)) calls).
  { induction cs as [|t cs IHcs]; intros h1 Hsub Hw1 Hsig1.
    - exists [], h1. cbn. repeat split; auto.
    - assert (Hedge : connected h0 n t).
      { exists c0. split; [exact Hc0|]. rewrite Hconn. apply Hsub.
        apply list_elem_of_here. }
      assert (Ht : t < length (nodes h1)).
      { rewrite (same_wiring_length h0 h1 Hw1). eapply Halloc; eauto. }
      destruct (lookup_lt_is_Some_2 _ _ Ht) as [ct Hct].
      pose proof (is_active_wiring h0 h1 t ct Hw1 Hct) as Hact.
      cbn [for_each]. unfold bind at 1. unfold body at 1.
      unfold bind at 1, get_node at 1. rewrite Hct.
      cbn [List.filter]. rewrite Hact.
      destruct (active ct).
      + destruct (lookup_lt_is_Some_2 _ _ Hsig1) as [g Hg].
        unfold bind at 1.
        rewrite (process_signal_run h1 t signal ct g Hct Hg).
        set (h2 := {| nodes := <[t := node_after ct g]> (nodes h1);
                      signals := signals h1 ++ [output_signal ct g] |}).
        destruct (IH (n :: visited) t h2 (length (signals h1)))
          as (nested & h3 & Hrun & Hw3 & Hlen3 & Hbc).
        * now apply same_wiring_process.
        * now apply on_walk_step.
        * cbn. lia.
        * subst h2. cbn. rewrite length_app. cbn. lia.
        * cbn [for_each]. unfold bind at 1. unfold bind at 1.
          rewrite Hrun. unfold bind at 1. cbn [ret].
          destruct (IHcs h3) as (calls & h' & Hrest & Hw' & Hlen' & Htg & Hall).
          -- intros t' Ht'. apply Hsub. now apply list_elem_of_further.
          -- exact Hw3.
          -- subst h2. cbn in Hlen3. rewrite length_app in Hlen3. lia.
          -- exists (MkCall t signal [length (signals h1)] (nested ++ [])
                       :: calls), h'.
             unfold bind. rewrite Hrest. cbn.
             split; [reflexivity|]. split; [exact Hw'|].
             split.
             { subst h2. cbn in Hlen3. rewrite length_app in Hlen3. lia. }
             split; [now rewrite Htg|].
             constructor; [|exact Hall]. cbn. split; [reflexivity|].
             exists (length (signals h1)). split; [reflexivity|].
             now rewrite app_nil_r.
      + cbn [ret]. unfold bind at 1. cbn.
        destruct (IHcs h1) as (calls & h' & Hrest & Hw' & Hlen' & Htg & Hall).
        * intros t' Ht'. apply Hsub. now apply list_elem_of_further.
        * exact Hw1.
        * exact Hsig1.
        * exists calls, h'. unfold bind. rewrite Hrest. cbn.
          repeat split; auto. }
  destruct (Hloop (connections c) h)
    as (calls & h' & Hrun & Hw' & Hlen & Htg & Hall); auto.
  exists calls, h'. split; [exact Hrun|]. split; [exact Hw'|].
  split; [exact Hlen|].
  econstructor; [exact Hc0| |exact Hall]. now rewrite Hconn.
Qed.

(** Whatever a run returns is what the three loops do. *)
Lemma send_signal_sends :
  ∀ fuel self signal (h : Heap F) calls h',
    send_signal fuel self signal h = Some (calls, h') →
    Sends h self signal calls h'.
Proof.
  induction fuel as [|fuel IH]; intros self signal h calls h' Hrun;
    [discriminate|].
  cbn in Hrun. unfold bind at 1 in Hrun.
  destruct (get_node self h) as [[c h0]|] eqn:Hget; [|discriminate].
  assert (h0 = h ∧ nodes h !! self = Some c) as [-> Hc].
  { unfold get_node in Hget. destruct (nodes h !! self); [|discriminate].
    now inversion Hget. }
  apply (Sends_intro h self signal c calls h' Hc).
  clear Hget Hc. revert h calls h' Hrun.
  induction (connections c) as [|t ts IHts]; intros h calls h' Hrun.
  - inversion Hrun; subst. constructor.
  - cbn [for_each] in Hrun. unfold bind at 1 in Hrun. unfold bind at 1 in Hrun.
    destruct (get_node t h) as [[ct h0]|] eqn:Hget; [|discriminate].
    assert (h0 = h ∧ nodes h !! t = Some ct) as [-> Hct].
    { unfold get_node in Hget. destruct (nodes h !! t); [|discriminate].
      now inversion Hget. }
    destruct (active ct) eqn:Hact.
    + unfold bind at 1 in Hrun.
      destruct (process_signal t signal h) as [[outs h1]|] eqn:Hp;
        [|discriminate].
      unfold bind at 1 in Hrun.
      destruct (for_each outs (λ o, send_signal fuel t o) h1)
        as [[nested h2]|] eqn:Hn; [|discriminate].
      cbn [ret] in Hrun. unfold bind at 1 in Hrun.
      destruct (for_each ts _ h2) as [[rest h3]|] eqn:Hrest; [|discriminate].
      inversion Hrun; subst. cbn [app].
      eapply Delivers_active; [exact Hct|exact Hact|exact Hp| |].
      * clear Hp Hrest Hct Hrun. revert h1 nested h2 Hn.
        induction outs as [|o os IHos]; intros h1 nested h2 Hn.
        -- inversion Hn; subst. constructor.
        -- cbn [for_each] in Hn. unfold bind at 1 in Hn.
           destruct (send_signal fuel t o h1) as [[k1 h4]|] eqn:E1;
             [|discriminate].
           unfold bind at 1 in Hn.
           destruct (for_each os _ h4) as [[k2 h5]|] eqn:E2; [|discriminate].
           inversion Hn; subst.
           econstructor; [exact (IH _ _ _ _ _ E1)|exact (IHos _ _ _ E2)].
      * exact (IHts _ _ _ Hrest).
    + cbn [ret] in Hrun. unfold bind at 1 in Hrun.
      destruct (for_each ts _ h) as [[rest h3]|] eqn:Hrest; [|discriminate].
      inversion Hrun; subst. cbn [app].
      eapply Delivers_inactive; [exact Hct|exact Hact|].
      exact (IHts _ _ _ Hrest).
Qed.

End SendSignal.

Section SendSignalClaim.
Context {F : Type} `{Arith F}.

(** C8. [send_signal] calls [process_signal] on exactly the entries of
    [self.connections] whose [active] flag is set, in list order and on the
    signal it was given, and propagates each returned signal from the
    target in the same way ([Broadcast]).  The calls and the final heap are
    those of the three loops of the method ([Sends]): each call is a
    [process_signal] of the target on the heap the earlier calls left, its
    outputs are what that call returned, and the calls nested under it are
    those of sending these outputs from the target.  When the connection
    graph has no cycle the recursion returns: every fuel from the number of
    objects on gives the same calls and the same final heap. *)
Theorem send_signal_propagates_and_terminates
  (h : Heap F) (self : ref) (signal : sref) c :
  nodes h !! self = Some c →
  signal < length (signals h) →
  connections_allocated h →
  acyclic (connected h) →
  ∃ calls h',
    (∀ fuel, length (nodes h) ≤ fuel →
             send_signal fuel self signal h = Some (calls, h')) ∧
    map call_target calls = List.filter (is_active h) (connections c) ∧
    Forall (λ k, call_input k = signal) calls ∧
    Broadcast h self signal calls ∧
    Sends h self signal calls h'.
Proof.
  intros Hc Hsig Halloc Hacyc.
  assert (Hn : self < length (nodes h)) by (eapply lookup_lt_Some; eauto).
  destruct (send_signal_total h self Halloc
              (acyclic_acyclic_from _ self Hacyc)
              (length (nodes h)) [] self h signal)
    as (calls & h' & Hrun & _ & _ & Hbc).
  - reflexivity.
  - now apply on_walk_start.
  - cbn. lia.
  - exact Hsig.
  - exists calls, h'.
    split; [intros fuel Hfuel; eapply send_signal_fuel_mono; eauto|].
    inversion Hbc as [? ? c' ? Hc' Htg Hall]; subst.
    rewrite Hc in Hc'. inversion Hc'; subst c'.
    split; [exact Htg|]. split; [|split; [exact Hbc|]].
    + eapply Forall_impl; [exact Hall|]. now intros k [Hk _].
    + exact (send_signal_sends _ _ _ _ _ _ Hrun).
Qed.

(** Without the hypothesis there is no guard: on a component connected to
    itself the recursion uses up any fuel. *)
Lemma send_signal_self_loop_diverges :
  ∀ fuel (h : Heap F) signal,
    nodes h = nodes (loop_heap (F := F)) →
    send_signal fuel 0 signal h = None.
Proof.
  induction fuel as [|fuel IH]; intros h signal Hnodes; [reflexivity|].
  destruct (nodes h !! 0) as [c|] eqn:Hc;
    [|now rewrite Hnodes in Hc].
  assert (Hc0 : c = {| name := "Brain"; parent := None; children := [];
                       connections := [0]; active := true;
                       variant := BasicNervousSystemComponent |}).
  { rewrite Hnodes in Hc. now inversion Hc. }
  subst c.
  cbn [send_signal]. unfold bind at 1, get_node at 1. rewrite Hc.
  cbn [connections for_each].
  unfold bind at 1. unfold bind at 1, get_node at 1. rewrite Hc.
  cbn [active]. unfold bind at 1.
  destruct (signals h !! signal) as [g|] eqn:Hg.
  - rewrite (process_signal_run h 0 signal _ g Hc Hg).
    cbn [for_each]. unfold bind at 1. unfold bind at 1.
    rewrite IH; [reflexivity|]. cbn [nodes].
    rewrite list_insert_id; [exact Hnodes|].
    rewrite Hc. reflexivity.
  - unfold process_signal, bind, get_node. rewrite Hc. cbn.
    unfold BasicNervousSystemComponent_process_signal, bind, get_signal.
    now rewrite Hg.
Qed.

End SendSignalClaim.

Lemma send_signal_propagates_and_terminates_witness :
  ∃ h' c1,
    (∀ fuel, 4 ≤ fuel →
             send_signal fuel 3 0 (wired_heap (F := float)) =
               Some ([MkCall 2 0 [1] [MkCall 1 1 [2] [MkCall 0 2 [3] []]];
                      MkCall 1 0 [4] [MkCall 0 4 [5] []]], h')) ∧
    Sends (wired_heap (F := float)) 3 0
      [MkCall 2 0 [1] [MkCall 1 1 [2] [MkCall 0 2 [3] []]];
       MkCall 1 0 [4] [MkCall 0 4 [5] []]] h' ∧
    length (signals h') = 6 ∧
    nodes h' !! 1 = Some c1 ∧
    activity_level c1 = Some 0.15680000000000005%float.
Proof.
  destruct (connections_before_sound (wired_heap (F := float)) eq_refl)
    as [Halloc Hacyc].
  destruct (send_signal_propagates_and_terminates (F := float) wired_heap 3 0
              _ eq_refl ltac:(cbn; lia) Halloc Hacyc)
    as (calls & h' & Hrun & _ & _ & _ & Hsends).
  pose proof (Hrun 4 ltac:(cbn; lia)) as E. vm_compute in E.
  injection E as <- <-.
  eexists _, _. split; [exact Hrun|]. split; [exact Hsends|].
  split; [reflexivity|]. split; reflexivity.
Defined.

(** ** The built system *)

Section Search.
Context {F : Type} `{Arith F}.

Lemma bind_run {A B} (m : M F A) (k : A → M F B) (h : Heap F) :
  bind m k h = match m h with Some (a, h') => k a h' | None => None end.
Proof. reflexivity. Qed.

Lemma find_component_fuel_mono :
  ∀ fuel fuel' root nm (h : Heap F) r,
    fuel ≤ fuel' →
    find_component fuel root nm h = Some r →
    find_component fuel' root nm h = Some r.
Proof.
  induction fuel as [|fuel IH]; intros fuel' root nm h r Hle Hrun;
    [discriminate|].
  destruct fuel' as [|fuel']; [lia|].
  cbn in *. unfold bind at 1. unfold bind at 1 in Hrun.
  destruct (get_node root h) as [[c h1]|]; [|discriminate].
  destruct (String.eqb (name c) nm); [exact Hrun|].
  revert h1 r Hrun.
  induction (children c) as [|child cs IHcs]; intros h1 r Hrun;
    [exact Hrun|].
  unfold bind at 1. unfold bind at 1 in Hrun.
  destruct (find_component fuel child nm h1) as [[res h2]|] eqn:E;
    [|discriminate].
  rewrite (IH fuel' child nm h1 _ ltac:(lia) E).
  destruct res; [exact Hrun|]. now apply IHcs.
Qed.

(** The traced search finds what [find_component] finds. *)
Lemma find_component_trace_result :
  ∀ fuel root nm (h : Heap F),
    find_component fuel root nm h =
      match find_component_trace fuel root nm h with
      | Some ((r, _), h') => Some (r, h')
      | None => None
      end.
Proof.
  induction fuel as [|fuel IH]; intros root nm h; [reflexivity|].
  cbn. rewrite !bind_run.
  destruct (get_node root h) as [[c h1]|]; [|reflexivity].
  destruct (String.eqb (name c) nm); [reflexivity|].
  rewrite bind_run.
  generalize dependent h1.
  induction (children c) as [|child cs IHcs]; intros h1; [reflexivity|].
  rewrite !bind_run. rewrite IH.
  destruct (find_component_trace fuel child nm h1) as [[[res vs] h2]|];
    [|reflexivity].
  cbn [fst snd]. destruct res; [reflexivity|].
  rewrite IHcs. rewrite bind_run.
  match goal with
  | |- context [match ?m h2 with _ => _ end] => destruct (m h2) as [[[? ?] ?]|]
  end; reflexivity.
Qed.

Lemma find_component_trace_fuel_mono :
  ∀ fuel fuel' root nm (h : Heap F) r,
    fuel ≤ fuel' →
    find_component_trace fuel root nm h = Some r →
    find_component_trace fuel' root nm h = Some r.
Proof.
  induction fuel as [|fuel IH]; intros fuel' root nm h r Hle Hrun;
    [discriminate|].
  destruct fuel' as [|fuel']; [lia|].
  cbn in *. rewrite bind_run in *.
  destruct (get_node root h) as [[c h1]|]; [|discriminate].
  destruct (String.eqb (name c) nm); [exact Hrun|].
  rewrite bind_run in *.
  match type of Hrun with
  | match ?m h1 with _ => _ end = _ =>
      destruct (m h1) as [[found h2]|] eqn:Eloop; [|discriminate]
  end.
  match goal with
  | |- match ?m h1 with _ => _ end = _ =>
      assert (Eloop' : m h1 = Some (found, h2)); [|now rewrite Eloop']
  end.
  clear Hrun. revert h1 found h2 Eloop.
  induction (children c) as [|child cs IHcs]; intros h1 found h2 Eloop;
    [exact Eloop|].
  rewrite bind_run in *.
  destruct (find_component_trace fuel child nm h1) as [[res h3]|] eqn:E;
    [|discriminate].
  rewrite (IH fuel' child nm h1 _ ltac:(lia) E).
  destruct (fst res); [exact Eloop|].
  rewrite bind_run in *.
  match type of Eloop with
  | match ?m h3 with _ => _ end = _ =>
      destruct (m h3) as [[later h4]|] eqn:El; [|discriminate]
  end.
  now rewrite (IHcs _ _ _ El).
Qed.

Lemma demo_signal_processing_fuel_mono :
  ∀ fuel fuel' (h : Heap F) r,
    fuel ≤ fuel' →
    demo_signal_processing fuel h = Some r →
    demo_signal_processing fuel' h = Some r.
Proof.
  intros fuel fuel' h r Hle. unfold demo_signal_processing.
  rewrite !bind_run.
  destruct (build_complete_system h) as [[root h1]|]; [|discriminate].
  rewrite !bind_run.
  destruct (find_component fuel root "PrimaryMotorCortex" h1)
    as [[found h2]|] eqn:E1; [|discriminate].
  rewrite (find_component_fuel_mono _ _ _ _ _ _ Hle E1).
  rewrite !bind_run.
  destruct (lift_option found h2) as [[motor_cortex h3]|]; [|discriminate].
  rewrite !bind_run.
  destruct (get_path fuel motor_cortex h3) as [[path h4]|] eqn:E2;
    [|discriminate].
  now rewrite (get_path_fuel_mono _ _ _ _ _ Hle E2).
Qed.

End Search.

(** C3. The demo on the freshly built system: the search finds the object
    named [PrimaryMotorCortex]; processing the signal
    [("motor_command", 0.8, "move_right_hand")] returns exactly one signal,
    of kind [motor_control_processed].  In exact arithmetic its strength is
    0.8 * 0.8 * 1.2 = 0.768 and the activity level afterwards is
    min(1.0, 0 + 0.8 * 0.1) = 0.08.  In binary64 the same products round to
    0.7680000000000001 and 0.08000000000000002, the values next above
    0.768 and 0.08. *)
Theorem demo_motor_cortex_signal :
  (∀ fuel, 7 ≤ fuel →
     ∃ m path o h' c',
       demo_signal_processing (F := Q) fuel empty_heap =
         Some ((m, path, [o]), h') ∧
       nodes h' !! m = Some c' ∧
       name c' = "PrimaryMotorCortex" ∧
       signals h' !! o =
         Some {| signal_type := "motor_control_processed";
                 strength := 0.768%Q;
                 data := PyStr "Processed by PrimaryMotorCortex" |} ∧
       activity_level c' = Some 0.08%Q ∧
       (fmul (fmul lit_0_8 lit_0_8) lit_1_2 == 0.768)%Q ∧
       (py_min lit_1_0 (fadd lit_0_0 (fmul lit_0_8 lit_0_1)) == 0.08)%Q)
  ∧
  (∀ fuel, 7 ≤ fuel →
     ∃ m path o h' c',
       demo_signal_processing (F := float) fuel empty_heap =
         Some ((m, path, [o]), h') ∧
       nodes h' !! m = Some c' ∧
       name c' = "PrimaryMotorCortex" ∧
       signals h' !! o =
         Some {| signal_type := "motor_control_processed";
                 strength := 0.7680000000000001%float;
                 data := PyStr "Processed by PrimaryMotorCortex" |} ∧
       activity_level c' = Some 0.08000000000000002%float ∧
       fmul (fmul lit_0_8 lit_0_8) lit_1_2 = 0.7680000000000001%float ∧
       py_min lit_1_0 (fadd lit_0_0 (fmul lit_0_8 lit_0_1)) =
         0.08000000000000002%float ∧
       PrimFloat.next_up 0.768%float = 0.7680000000000001%float ∧
       PrimFloat.next_up 0.08%float = 0.08000000000000002%float).
Proof.
  split; intros fuel Hfuel.
  - destruct (demo_signal_processing (F := Q) 7 empty_heap)
      as [[[[m path] outs] h']|] eqn:E; [|vm_compute in E; discriminate].
    pose proof (demo_signal_processing_fuel_mono _ _ _ _ Hfuel E) as E'.
    vm_compute in E. inversion E; subst. clear E.
    eexists. eexists. eexists. eexists. eexists.
    split; [exact E'|].
    split; [reflexivity|]. repeat split; reflexivity.
  - destruct (demo_signal_processing (F := float) 7 empty_heap)
      as [[[[m path] outs] h']|] eqn:E; [|vm_compute in E; discriminate].
    pose proof (demo_signal_processing_fuel_mono _ _ _ _ Hfuel E) as E'.
    vm_compute in E. inversion E; subst. clear E.
    eexists. eexists. eexists. eexists. eexists.
    split; [exact E'|].
    split; [reflexivity|]. repeat split; reflexivity.
Qed.

Lemma demo_motor_cortex_signal_witness :
  ∃ m path o h',
    demo_signal_processing (F := float) 69 empty_heap =
      Some ((m, path, [o]), h') ∧
    signals h' !! o =
      Some {| signal_type := "motor_control_processed";
              strength := 0.7680000000000001%float;
              data := PyStr "Processed by PrimaryMotorCortex" |}.
Proof.
  destruct (proj2 demo_motor_cortex_signal 69 ltac:(lia))
    as (m & path & o & h' & c' & Hrun & _ & _ & Hout & _).
  exists m, path, o, h'. split; [exact Hrun | exact Hout].
Defined.

(** C10. The heap that [build_complete_system] returns holds two different
    objects named [Hippocampus]: one is a child of [TemporalLobe], the other
    a child of [LimbicSystem]; both are reached from the root, as their paths
    show.  The pre-order search for that name returns the one under
    [TemporalLobe], and the one under [LimbicSystem] is not among the objects
    it compares. *)
Theorem hippocampus_name_not_unique {F : Type} `{Arith F} :
  ∃ (t l temporal limbic : ref) ct cl ctemporal climbic,
    t ≠ l ∧
    nodes (built_heap (F := F)) !! t = Some ct ∧
    name ct = "Hippocampus" ∧
    parent ct = Some temporal ∧
    nodes (built_heap (F := F)) !! temporal = Some ctemporal ∧
    name ctemporal = "TemporalLobe" ∧
    t ∈ children ctemporal ∧
    nodes (built_heap (F := F)) !! l = Some cl ∧
    name cl = "Hippocampus" ∧
    parent cl = Some limbic ∧
    nodes (built_heap (F := F)) !! limbic = Some climbic ∧
    name climbic = "LimbicSystem" ∧
    l ∈ children climbic ∧
    (∀ fuel, 7 ≤ fuel →
       get_path fuel t built_heap =
         Some ("NervousSystem/CentralNervousSystem/Brain/Cerebrum/"
               +:+ "CerebralCortex/TemporalLobe/Hippocampus", built_heap) ∧
       get_path fuel l built_heap =
         Some ("NervousSystem/CentralNervousSystem/Brain/"
               +:+ "LimbicSystem/Hippocampus", built_heap) ∧
       find_component fuel built_root "Hippocampus" built_heap =
         Some (Some t, built_heap) ∧
       ∃ visited,
         find_component_trace fuel built_root "Hippocampus" built_heap =
           Some ((Some t, visited), built_heap) ∧
         l ∉ visited).
Proof.
  exists 15, 44, 12, 43.
  eexists. eexists. eexists. eexists.
  split; [discriminate|].
  split; [vm_compute; reflexivity|].
  split; [reflexivity|]. split; [reflexivity|].
  split; [vm_compute; reflexivity|].
  split; [reflexivity|]. split; [cbn; repeat constructor|].
  split; [vm_compute; reflexivity|].
  split; [reflexivity|]. split; [reflexivity|].
  split; [vm_compute; reflexivity|].
  split; [reflexivity|]. split; [cbn; repeat constructor|].
  intros fuel Hfuel.
  split.
  { apply (get_path_fuel_mono _ 7); [exact Hfuel|]. vm_compute. reflexivity. }
  split.
  { apply (get_path_fuel_mono _ 7); [exact Hfuel|]. vm_compute. reflexivity. }
  split.
  { apply (find_component_fuel_mono 7); [exact Hfuel|].
    vm_compute. reflexivity. }
  exists [0; 1; 2; 3; 4; 5; 6; 7; 8; 9; 10; 11; 12; 13; 14; 15].
  split.
  { apply (find_component_trace_fuel_mono 7); [exact Hfuel|].
    vm_compute. reflexivity. }
  intros Hin%list_elem_of_In. cbn in Hin. intuition discriminate.
Qed.

Lemma get_path_spec_witness :
  ∃ path,
    (∀ fuel, 69 ≤ fuel →
             get_path fuel 6 (built_heap (F := float)) =
               Some (path, built_heap)) ∧
    path = "NervousSystem/CentralNervousSystem/Brain/Cerebrum/"
           +:+ "CerebralCortex/FrontalLobe/PrimaryMotorCortex".
Proof.
  assert (Hchk : targets_before (λ c, option_list (parent c))
                   (built_heap (F := float)) = true)
    by (vm_compute; reflexivity).
  destruct (parents_before_sound _ Hchk) as [Halloc Hacyc].
  destruct (nodes (built_heap (F := float)) !! 6) as [c|] eqn:Hc;
    [|vm_compute in Hc; discriminate].
  destruct (get_path_spec (F := float) built_heap 6 c Hc Halloc
              (acyclic_acyclic_from _ 6 Hacyc))
    as (path & Hrun & _).
  exists path.
  assert (Hlen : length (nodes (built_heap (F := float))) = 69)
    by (vm_compute; reflexivity).
  rewrite Hlen in Hrun.
  split; [exact Hrun|].
  specialize (Hrun 69 ltac:(lia)). vm_compute in Hrun. now inversion Hrun.
Defined.

(** * Further properties of the source *)

(** ** What [send_signal] can change *)

Section SendSignalFrame.
Context {F : Type} `{Arith F}.

Lemma node_after_structure (c : Component F) g :
  structure_of (node_after c g) = structure_of c.
Proof.
  unfold structure_of.
  destruct (node_after_fields c g)
    as (-> & -> & -> & -> & -> & -> & -> & ->).
  reflexivity.
Qed.

(** A call that returned found its receiver and its signal. *)
Lemma process_signal_inv (h : Heap F) self signal outs h1 :
  process_signal self signal h = Some (outs, h1) →
  ∃ c g,
    nodes h !! self = Some c ∧ signals h !! signal = Some g ∧
    outs = [length (signals h)] ∧
    h1 = {| nodes := <[self := node_after c g]> (nodes h);
            signals := signals h ++ [output_signal c g] |}.
Proof.
  intros Hrun.
  destruct (nodes h !! self) as [c|] eqn:Hc.
  - destruct (signals h !! signal) as [g|] eqn:Hg.
    + rewrite (process_signal_run h self signal c g Hc Hg) in Hrun.
      inversion Hrun; subst. exists c, g. repeat split; assumption.
    + exfalso. rewrite (process_signal_dispatch h self signal c Hc) in Hrun.
      unfold BasicNervousSystemComponent_process_signal,
        BrainRegion_process_signal, CorticalArea_process_signal,
        BrainRegion_process_signal, bind, get_node, get_signal in Hrun.
      rewrite Hc, Hg in Hrun. destruct (variant c); discriminate.
  - exfalso. unfold process_signal, bind, get_node in Hrun.
    now rewrite Hc in Hrun.
Qed.

Lemma broadcast_frame_nil (h : Heap F) : broadcast_frame h [] h.
Proof.
  split; [reflexivity|]. split; [|reflexivity].
  exists []. now rewrite app_nil_r.
Qed.

Lemma broadcast_frame_app (h h1 h2 : Heap F) k1 k2 :
  broadcast_frame h k1 h1 → broadcast_frame h1 k2 h2 →
  broadcast_frame h (k1 ++ k2) h2.
Proof.
  intros (Hs1 & (n1 & Hn1 & Hl1) & Hf1) (Hs2 & (n2 & Hn2 & Hl2) & Hf2).
  unfold calls_count, calls_targets in *.
  split; [unfold same_structure in *; congruence|]. split.
  - exists (n1 ++ n2). rewrite Hn2, Hn1, <- app_assoc. split; [reflexivity|].
    unfold calls_count.
    rewrite length_app, List.map_app, list_sum_app. lia.
  - intros n Hn. unfold calls_targets in Hn.
    rewrite List.map_app, List.concat_app in Hn.
    rewrite Hf2, Hf1; [reflexivity| |];
      intros Hin; apply Hn; apply elem_of_app; auto.
Qed.

Lemma for_each_frame {A} (body : A → M F (list Call)) (xs : list A) :
  (∀ x h r h', body x h = Some (r, h') → broadcast_frame h r h') →
  ∀ h r h', for_each xs body h = Some (r, h') → broadcast_frame h r h'.
Proof.
  intros Hbody. induction xs as [|x xs IH]; intros h r h' Hrun.
  - inversion Hrun; subst. apply broadcast_frame_nil.
  - cbn in Hrun. unfold bind in Hrun.
    destruct (body x h) as [[ys h1]|] eqn:E1; [|discriminate].
    destruct (for_each xs body h1) as [[zs h2]|] eqn:E2; [|discriminate].
    inversion Hrun; subst.
    eapply broadcast_frame_app; eauto.
Qed.

(** One call and the broadcast of what it returned. *)
Lemma broadcast_frame_call (h h2 : Heap F) t signal c g nested :
  nodes h !! t = Some c →
  broadcast_frame
    {| nodes := <[t := node_after c g]> (nodes h);
       signals := signals h ++ [output_signal c g] |} nested h2 →
  broadcast_frame h [MkCall t signal [length (signals h)] nested] h2.
Proof.
  intros Hc (Hs & (new & Hnew & Hlen) & Hf). cbn in *.
  split; [|split].
  - unfold same_structure in *. cbn in Hs. rewrite Hs.
    rewrite list_fmap_insert, node_after_structure.
    apply list_insert_id. now rewrite list_lookup_fmap, Hc.
  - exists (output_signal c g :: new). rewrite Hnew, <- app_assoc.
    split; [reflexivity|]. unfold calls_count in *. cbn. lia.
  - intros n Hn. unfold calls_targets in *. cbn in Hn.
    rewrite app_nil_r in Hn.
    rewrite Hf.
    + apply list_lookup_insert_ne. intros ->. apply Hn.
      apply list_elem_of_here.
    + intros Hin. apply Hn. now apply list_elem_of_further.
Qed.

(** X1. Whenever [send_signal] returns, on any connection graph: every
    object keeps its name, parent, children, connections, flag, function,
    area type and layers; exactly one signal was created per
    [process_signal] call and every earlier signal is unchanged; and an
    object that no call targeted is unchanged altogether, activity level
    included. *)
Theorem send_signal_frame (fuel : nat) (self : ref) (signal : sref)
  (h : Heap F) calls h' :
  send_signal fuel self signal h = Some (calls, h') →
  same_structure h h' ∧
  (∃ new, signals h' = signals h ++ new ∧ length new = calls_count calls) ∧
  (∀ n, n ∉ calls_targets calls → nodes h' !! n = nodes h !! n).
Proof.
  change (send_signal fuel self signal h = Some (calls, h') →
          broadcast_frame h calls h').
  revert self signal h calls h'.
  induction fuel as [|fuel IH]; intros self signal h calls h' Hrun;
    [discriminate|].
  cbn in Hrun. unfold bind at 1 in Hrun.
  destruct (get_node self h) as [[c h0]|] eqn:Hget; [|discriminate].
  assert (h0 = h) as ->.
  { unfold get_node in Hget. destruct (nodes h !! self); now inversion Hget. }
  revert Hrun. apply for_each_frame. clear calls h'.
  intros t h1 r h' Hbody. unfold bind at 1 in Hbody.
  destruct (get_node t h1) as [[ct h1']|] eqn:Hget'; [|discriminate].
  assert (h1' = h1) as ->.
  { unfold get_node in Hget'. destruct (nodes h1 !! t); now inversion Hget'. }
  destruct (active ct).
  - unfold bind at 1 in Hbody.
    destruct (process_signal t signal h1) as [[outs h2]|] eqn:Hp;
      [|discriminate].
    destruct (process_signal_inv _ _ _ _ _ Hp) as (c' & g & Hc' & Hg & -> & ->).
    unfold bind in Hbody. cbn [for_each] in Hbody. unfold bind in Hbody.
    match type of Hbody with
    | match match ?m with _ => _ end with _ => _ end = _ =>
        destruct m as [[nested h3]|] eqn:Hn; [|discriminate]
    end.
    cbn in Hbody. inversion Hbody; subst. rewrite app_nil_r.
    eapply broadcast_frame_call; eauto.
  - inversion Hbody; subst. apply broadcast_frame_nil.
Qed.

End SendSignalFrame.

Lemma send_signal_frame_witness :
  ∃ calls h',
    send_signal 4 3 0 (wired_heap (F := float)) = Some (calls, h') ∧
    same_structure wired_heap h' ∧
    calls_count calls = 5 ∧
    length (signals h') = 1 + 5 ∧
    nodes h' !! 3 = nodes (wired_heap (F := float)) !! 3.
Proof.
  destruct (send_signal 4 3 0 (wired_heap (F := float)))
    as [[calls h']|] eqn:E; [|vm_compute in E; discriminate].
  destruct (send_signal_frame 4 3 0 _ calls h' E)
    as (Hs & (new & Hnew & Hlen) & Hf).
  assert (Hcalls : calls_targets calls = [2; 1; 0; 1; 0]).
  { vm_compute in E. inversion E. reflexivity. }
  assert (Hcount : calls_count calls = 5).
  { vm_compute in E. inversion E. reflexivity. }
  exists calls, h'. split; [reflexivity|]. split; [exact Hs|].
  split; [exact Hcount|]. split.
  - rewrite Hnew, length_app, Hlen, Hcount. reflexivity.
  - apply Hf. rewrite Hcalls. intros Hin%list_elem_of_In.
    cbn in Hin. intuition discriminate.
Defined.

(** ** [send_signal] on switched-off targets and on repeated connections *)

Section SendSignalEdges.
Context {F : Type} `{Arith F}.

Lemma send_signal_S (fuel : nat) (self : ref) (signal : sref) (h : Heap F) :
  send_signal (S fuel) self signal h =
    bind (get_node self) (λ c,
      for_each (connections c) (λ connection,
        bind (get_node connection) (λ t,
          if active t then
            bind (process_signal connection signal) (λ output_signals,
              bind (for_each output_signals
                      (λ output_signal,
                         send_signal fuel connection output_signal))
                   (λ nested,
                      ret [MkCall connection signal output_signals nested]))
          else ret []))) h.
Proof. reflexivity. Qed.

Lemma send_signal_quiet (h : Heap F) (self : ref) (signal : sref) c fuel :
  nodes h !! self = Some c →
  Forall (λ t, ∃ ct, nodes h !! t = Some ct ∧ active ct = false)
         (connections c) →
  send_signal (S fuel) self signal h = Some ([], h).
Proof.
  intros Hc Hoff. cbn. unfold bind at 1, get_node at 1. rewrite Hc.
  induction Hoff as [|t ts (ct & Hct & Hact) _ IH]; [reflexivity|].
  cbn [for_each]. unfold bind at 1. unfold bind at 1, get_node at 1.
  rewrite Hct, Hact. cbn [ret]. unfold bind at 1. now rewrite IH.
Qed.

(** X2. When every entry of [self.connections] has its [active] flag off
    (in particular when there is no connection), [send_signal] makes no
    [process_signal] call and leaves the heap as it is, whatever the signal
    and whatever cycles the connections form: one level of recursion is
    enough. *)
Theorem send_signal_inactive_is_noop
  (h : Heap F) (self : ref) (signal : sref) c fuel :
  nodes h !! self = Some c →
  Forall (λ t, ∃ ct, nodes h !! t = Some ct ∧ active ct = false)
         (connections c) →
  send_signal (S fuel) self signal h = Some ([], h).
Proof. apply send_signal_quiet. Qed.

(** X3. [add_connection] neither checks for an existing entry nor touches
    the target.  Let [a] and [b] be two different components without
    connections, [b] with its flag on.  After [a.add_connection(b)] twice,
    [a.connections] is [[b; b]], and [b] and the signals are as before.  A
    [send_signal] from [a], with any fuel from two on, then calls
    [process_signal] on [b] twice with the same signal and nothing else: [b]
    creates two different output signals and counts the strength twice in
    its activity level. *)
Theorem add_connection_twice_delivers_twice
  (h : Heap F) (a b : ref) (signal : sref) ca cb g :
  a ≠ b →
  nodes h !! a = Some ca →
  nodes h !! b = Some cb →
  signals h !! signal = Some g →
  connections ca = [] →
  connections cb = [] →
  active cb = true →
  ∃ h1 ca1,
    (run add_connection a b; add_connection a b) h = Some (tt, h1) ∧
    nodes h1 !! a = Some ca1 ∧
    connections ca1 = [b; b] ∧
    nodes h1 !! b = Some cb ∧
    signals h1 = signals h ∧
    ∀ fuel, ∃ o1 o2 h2,
      send_signal (S (S fuel)) a signal h1 =
        Some ([MkCall b signal [o1] []; MkCall b signal [o2] []], h2) ∧
      o1 ≠ o2 ∧
      nodes h2 !! b = Some (node_after (node_after cb g) g).
Proof.
  intros Hab Ha Hb Hg Hca Hcb Hact.
  assert (La : a < length (nodes h)) by (eapply lookup_lt_Some; eauto).
  assert (Lb : b < length (nodes h)) by (eapply lookup_lt_Some; eauto).
  set (ca1 := with_connections [b; b] ca).
  set (h1 := {| nodes := <[a := ca1]> (nodes h); signals := signals h |}).
  exists h1, ca1.
  assert (Ha1 : nodes h1 !! a = Some ca1)
    by (cbn; now apply list_lookup_insert_eq).
  assert (Hb1 : nodes h1 !! b = Some cb)
    by (cbn; now rewrite list_lookup_insert_ne).
  split.
  { unfold bind, add_connection, update_node. rewrite Ha. cbn.
    rewrite list_lookup_insert_eq by exact La. cbn.
    rewrite list_insert_insert_eq, Hca. reflexivity. }
  split; [exact Ha1|]. split; [reflexivity|]. split; [exact Hb1|].
  split; [reflexivity|].
  intros fuel.
  assert (Hwb : ∀ x, connections (node_after cb x) = [] ∧
                     active (node_after cb x) = true).
  { intros x. destruct (node_after_fields cb x)
      as (_ & _ & _ & -> & -> & _). auto. }
  set (h2 := {| nodes := <[b := node_after cb g]> (nodes h1);
                signals := signals h1 ++ [output_signal cb g] |}).
  set (cb2 := node_after cb g).
  set (h3 := {| nodes := <[b := node_after cb2 g]> (nodes h2);
                signals := signals h2 ++ [output_signal cb2 g] |}).
  assert (Hb2 : nodes h2 !! b = Some cb2).
  { cbn. apply list_lookup_insert_eq. now rewrite length_insert. }
  assert (Hb3 : nodes h3 !! b = Some (node_after cb2 g)).
  { cbn. apply list_lookup_insert_eq. now rewrite !length_insert. }
  exists (length (signals h1)), (length (signals h2)), h3.
  split; [|split; [|exact Hb3]].
  - rewrite (send_signal_S (S fuel) a signal).
    unfold bind at 1, get_node at 1. rewrite Ha1.
    change (connections ca1) with [b; b]. cbn [for_each].
    (* first delivery *)
    unfold bind at 1. unfold bind at 1, get_node at 1. rewrite Hb1, Hact.
    unfold bind at 1.
    rewrite (process_signal_run h1 b signal cb g Hb1 Hg). fold h2.
    cbn [for_each]. unfold bind at 1. unfold bind at 1.
    rewrite (send_signal_quiet h2 b _ cb2 fuel Hb2)
      by (unfold cb2; rewrite (proj1 (Hwb g)); constructor).
    unfold bind at 1. cbn [ret app].
    (* second delivery *)
    unfold bind at 1. unfold bind at 1. unfold bind at 1, get_node at 1.
    rewrite Hb2. unfold cb2 at 1. rewrite (proj2 (Hwb g)).
    unfold bind at 1.
    assert (Hg2 : signals h2 !! signal = Some g)
      by (cbn; now apply lookup_app_l_Some).
    rewrite (process_signal_run h2 b signal cb2 g Hb2 Hg2). fold h3.
    cbn [for_each]. unfold bind at 1. unfold bind at 1.
    rewrite (send_signal_quiet h3 b _ (node_after cb2 g) fuel Hb3).
    + reflexivity.
    + destruct (node_after_fields cb2 g) as (_ & _ & _ & -> & _).
      unfold cb2. rewrite (proj1 (Hwb g)). constructor.
  - subst h2. cbn. rewrite length_app. cbn. lia.
Qed.

End SendSignalEdges.

Lemma send_signal_inactive_is_noop_witness :
  send_signal 1 0 0 (quiet_loop_heap (F := float)) =
    Some ([], quiet_loop_heap).
Proof.
  apply (send_signal_inactive_is_noop (F := float) quiet_loop_heap 0 0
           {| name := "Brain"; parent := None; children := [];
              connections := [0]; active := false;
              variant := BasicNervousSystemComponent |} 0 eq_refl).
  constructor; [|constructor]. eexists. split; reflexivity.
Defined.

Lemma add_connection_twice_delivers_twice_witness :
  ∃ h1 ca1,
    (run add_connection 0 1; add_connection 0 1)
      (example_heap (F := Q)) = Some (tt, h1) ∧
    nodes h1 !! 0 = Some ca1 ∧
    connections ca1 = [1; 1] ∧
    ∃ calls h2 cb2,
      send_signal 2 0 0 h1 = Some (calls, h2) ∧
      List.map call_target calls = [1; 1] ∧
      nodes h2 !! 1 = Some cb2 ∧
      activity_level cb2 = Some (0 + 0.8 * 0.1 + 0.8 * 0.1)%Q.
Proof.
  destruct (add_connection_twice_delivers_twice (F := Q) example_heap 0 1 0
              _ _ _ ltac:(discriminate) eq_refl eq_refl eq_refl
              eq_refl eq_refl eq_refl)
    as (h1 & ca1 & Hadd & Ha1 & Hconn & _ & _ & Hsend).
  exists h1, ca1. split; [exact Hadd|]. split; [exact Ha1|].
  split; [exact Hconn|].
  destruct (Hsend 0) as (o1 & o2 & h2 & Hrun & _ & Hb).
  eexists. exists h2. eexists.
  split; [exact Hrun|]. split; [reflexivity|]. split; [exact Hb|].
  reflexivity.
Defined.

(** ** [find_component] on any heap *)

Section FindComponent.
Context {F : Type} `{Arith F}.

Lemma get_node_inv (r : ref) (h h' : Heap F) c :
  get_node r h = Some (c, h') → h' = h ∧ nodes h !! r = Some c.
Proof.
  unfold get_node. destruct (nodes h !! r); [|discriminate].
  intros E. now inversion E.
Qed.

(** What a returned search result means. *)
Lemma find_component_meaning :
  ∀ fuel root nm (h : Heap F) res h',
    find_component fuel root nm h = Some (res, h') →
    h' = h ∧
    match res with
    | Some r =>
        rtc (child_of h) root r ∧ ∃ c, nodes h !! r = Some c ∧ name c = nm
    | None =>
        ∀ m c, rtc (child_of h) root m → nodes h !! m = Some c → name c ≠ nm
    end.
Proof.
  induction fuel as [|fuel IH]; intros root nm h res h' Hrun; [discriminate|].
  cbn in Hrun. rewrite bind_run in Hrun.
  destruct (get_node root h) as [[c h0]|] eqn:Hget; [|discriminate].
  apply get_node_inv in Hget as [-> Hc].
  destruct (String.eqb_spec (name c) nm) as [Hname|Hname].
  { inversion Hrun; subst. split; [reflexivity|].
    split; [apply rtc_refl | eauto]. }
  assert (Hloop : ∀ cs res h',
    (∀ k, k ∈ cs → k ∈ children c) →
    (fix loop (cs : list nat) : M F (option nat) :=
       match cs with
       | [] => ret None
       | child :: cs' =>
           bind (find_component fuel child nm)
             (λ result, match result with
                        | Some r => ret (Some r)
                        | None => loop cs'
                        end)
       end) cs h = Some (res, h') →
    h' = h ∧
    match res with
    | Some r =>
        rtc (child_of h) root r ∧ ∃ c, nodes h !! r = Some c ∧ name c = nm
    | None =>
        ∀ k, k ∈ cs →
        ∀ m c, rtc (child_of h) k m → nodes h !! m = Some c → name c ≠ nm
    end).
  { induction cs as [|child cs IHcs]; intros res0 h0 Hsub Hl.
    - inversion Hl; subst. split; [reflexivity|].
      intros k Hk. inversion Hk.
    - rewrite bind_run in Hl.
      destruct (find_component fuel child nm h) as [[r1 h1]|] eqn:E;
        [|discriminate].
      destruct (IH _ _ _ _ _ E) as [-> Hr1].
      assert (Hedge : child_of h root child).
      { exists c. split; [exact Hc|]. apply Hsub. apply list_elem_of_here. }
      destruct r1 as [r|].
      + inversion Hl; subst. split; [reflexivity|].
        destruct Hr1 as [Hreach Hnm]. split; [|exact Hnm].
        eapply rtc_l; eauto.
      + destruct (IHcs res0 h0) as [-> Hrest]; [|exact Hl|].
        { intros k Hk. apply Hsub. now apply list_elem_of_further. }
        split; [reflexivity|].
        destruct res0 as [r|]; [exact Hrest|].
        intros k Hk. apply elem_of_cons in Hk as [->|Hk];
          [exact Hr1 | now apply Hrest]. }
  destruct (Hloop (children c) res h') as [-> Hres]; [auto|exact Hrun|].
  split; [reflexivity|].
  destruct res as [r|]; [exact Hres|].
  intros m cm Hreach Hm.
  apply rtc_inv in Hreach as [->|(k & (cp & Hcp & Hk) & Hrest)].
  - rewrite Hc in Hm. inversion Hm; subst. exact Hname.
  - rewrite Hc in Hcp. inversion Hcp; subst cp.
    eapply Hres; eauto.
Qed.

(** X4. Whatever the heap, a search that returns leaves it unchanged.  When
    it returns an object, that object can be reached from the root through
    children lists and has the name asked for; when it returns [None], no
    object that can be reached from the root has that name. *)
Theorem find_component_correct
  (fuel : nat) (root : ref) (nm : string) (h : Heap F) res h' :
  find_component fuel root nm h = Some (res, h') →
  h' = h ∧
  match res with
  | Some r =>
      rtc (child_of h) root r ∧ ∃ c, nodes h !! r = Some c ∧ name c = nm
  | None =>
      ∀ m c, rtc (child_of h) root m → nodes h !! m = Some c → name c ≠ nm
  end.
Proof. apply find_component_meaning. Qed.

(** Along children lists without cycle the search ends before the fuel
    does. *)
Lemma find_component_total (h : Heap F) (start : ref) (nm : string) :
  children_allocated h →
  acyclic_from (child_of h) start →
  ∀ fuel visited n,
    on_walk (child_of h) (length (nodes h)) start visited n →
    length (nodes h) ≤ fuel + length visited →
    ∃ res, find_component fuel n nm h = Some (res, h).
Proof.
  intros Halloc Hacyc.
  induction fuel as [|fuel IH]; intros visited n Hwalk Hfuel.
  { apply on_walk_length in Hwalk. lia. }
  pose proof Hwalk as (_ & Hn & _).
  destruct (lookup_lt_is_Some_2 _ _ Hn) as [c Hc].
  cbn. rewrite bind_run. unfold get_node. rewrite Hc.
  destruct (String.eqb (name c) nm); [eexists; reflexivity|].
  assert (Hsub : ∀ k, k ∈ children c → k ∈ children c) by auto.
  revert Hsub. generalize (children c) at 1 3.
  induction l as [|child cs IHcs]; intros Hsub; [eexists; reflexivity|].
  rewrite bind_run.
  destruct (IH (n :: visited) child) as (r1 & Hr1).
  - apply on_walk_step; try assumption.
    exists c. split; [exact Hc|]. apply Hsub. apply list_elem_of_here.
  - cbn. lia.
  - rewrite Hr1. destruct r1; [eexists; reflexivity|].
    apply IHcs. intros k Hk. apply Hsub. now apply list_elem_of_further.
Qed.

(** X5. On a heap whose children lists point to live objects and form no
    cycle below the root, the search returns for every fuel from the number
    of objects on. *)
Theorem find_component_terminates
  (h : Heap F) (root : ref) (nm : string) :
  root < length (nodes h) →
  children_allocated h →
  acyclic_from (child_of h) root →
  ∀ fuel, length (nodes h) ≤ fuel →
          ∃ res, find_component fuel root nm h = Some (res, h).
Proof.
  intros Hroot Halloc Hacyc fuel Hfuel.
  apply (find_component_total h root nm Halloc Hacyc fuel [] root).
  - now apply on_walk_start.
  - cbn. lia.
Qed.

End FindComponent.

Lemma increasing_acyclic (R : relation nat) :
  (∀ a b, R a b → a < b) → acyclic R.
Proof.
  intros Hinc.
  assert (Htc : ∀ a b, tc R a b → a < b).
  { intros a b Hab. induction Hab as [a b Hab|a b c Hab _ IH].
    - now apply Hinc.
    - apply Hinc in Hab. lia. }
  intros m Hm. apply Htc in Hm. lia.
Qed.

Lemma targets_after_sound {F : Type} (edges : Component F → list nat)
  (h : Heap F) :
  targets_after edges h = true →
  ∀ n c t, nodes h !! n = Some c → t ∈ edges c →
           n < t ∧ t < length (nodes h).
Proof.
  unfold targets_after. rewrite forallb_forall.
  intros Hall n c t Hc Ht.
  specialize (Hall (n, c)). cbn in Hall.
  rewrite forallb_forall in Hall.
  assert (Hin : In (n, c) (imap pair (nodes h))).
  { apply list_elem_of_In. apply elem_of_lookup_imap. eauto. }
  specialize (Hall Hin t (proj1 (list_elem_of_In _ _) Ht)).
  apply andb_prop in Hall as [H1 H2].
  apply Nat.ltb_lt in H1. apply Nat.ltb_lt in H2. auto.
Qed.

Lemma children_after_sound {F : Type} (h : Heap F) :
  targets_after children h = true →
  children_allocated h ∧ acyclic (child_of h).
Proof.
  intros Hchk. split.
  - intros p c (cp & Hcp & Hc).
    exact (proj2 (targets_after_sound children h Hchk p cp c Hcp Hc)).
  - apply increasing_acyclic. intros p c (cp & Hcp & Hc).
    exact (proj1 (targets_after_sound children h Hchk p cp c Hcp Hc)).
Qed.

Lemma find_component_correct_witness :
  (∃ r c,
     find_component 7 (built_root (F := float)) "Amygdala"
       (built_heap (F := float)) = Some (Some r, built_heap) ∧
     rtc (child_of (built_heap (F := float))) (built_root (F := float)) r ∧
     nodes (built_heap (F := float)) !! r = Some c ∧
     name c = "Amygdala") ∧
  (find_component 7 (built_root (F := float)) "Cortex"
     (built_heap (F := float)) = Some (None, built_heap) ∧
   ∀ m c,
     rtc (child_of (built_heap (F := float))) (built_root (F := float)) m →
     nodes (built_heap (F := float)) !! m = Some c →
     name c ≠ "Cortex").
Proof.
  split.
  - assert (E : find_component 7 (built_root (F := float)) "Amygdala"
                  (built_heap (F := float)) = Some (Some 48, built_heap))
      by (vm_compute; reflexivity).
    destruct (find_component_correct (F := float) _ _ _ _ _ _ E)
      as (_ & Hreach & c & Hc & Hnm).
    exists 48, c. split; [exact E|]. split; [exact Hreach|].
    split; [exact Hc | exact Hnm].
  - assert (E : find_component 7 (built_root (F := float)) "Cortex"
                  (built_heap (F := float)) = Some (None, built_heap))
      by (vm_compute; reflexivity).
    split; [exact E|].
    exact (proj2 (find_component_correct (F := float) _ _ _ _ _ _ E)).
Defined.

Lemma find_component_terminates_witness :
  ∃ res, find_component 100 (built_root (F := float)) "Cortex"
           (built_heap (F := float)) = Some (res, built_heap).
Proof.
  assert (Hchk : targets_after children (built_heap (F := float)) = true)
    by (vm_compute; reflexivity).
  destruct (children_after_sound _ Hchk) as [Halloc Hacyc].
  assert (Hlen : length (nodes (built_heap (F := float))) = 69)
    by (vm_compute; reflexivity).
  apply (find_component_terminates (F := float) built_heap
           (built_root (F := float)) "Cortex").
  - rewrite Hlen. vm_compute. lia.
  - exact Halloc.
  - now apply acyclic_acyclic_from.
  - rewrite Hlen. lia.
Defined.

(** ** [add_child] and the back-references *)

Section AddChild.
Context {F : Type} `{Arith F}.

(** X6. [add_child] keeps the tree consistent when the child is another
    object than the new parent and is in no other list of children: if
    every entry of every children list pointed back to the owner of the list
    before the call, it does so after the call, and the child is now an
    entry of the new parent. *)
Theorem add_child_keeps_back_references
  (h : Heap F) (self child : ref) cs cc :
  self ≠ child →
  nodes h !! self = Some cs →
  nodes h !! child = Some cc →
  children_know_parent h →
  (∀ q cq, q ≠ self → nodes h !! q = Some cq → child ∉ children cq) →
  ∃ h',
    add_child self child h = Some (tt, h') ∧
    children_know_parent h' ∧
    child_of h' self child.
Proof.
  intros Hne Hs Hc Hinv Hfresh.
  assert (Ls : self < length (nodes h)) by (eapply lookup_lt_Some; eauto).
  assert (Lc : child < length (nodes h)) by (eapply lookup_lt_Some; eauto).
  eexists. split; [now apply (add_child_run h self child cs cc)|].
  set (ns := <[self := with_children (children cs ++ [child]) cs]>
               (<[child := with_parent (Some self) cc]> (nodes h))).
  assert (Hself : ns !! self =
                  Some (with_children (children cs ++ [child]) cs)).
  { subst ns. apply list_lookup_insert_eq. now rewrite length_insert. }
  assert (Hchild : ns !! child = Some (with_parent (Some self) cc)).
  { subst ns. rewrite list_lookup_insert_ne by exact Hne.
    now apply list_lookup_insert_eq. }
  assert (Hother : ∀ n, n ≠ self → n ≠ child → ns !! n = nodes h !! n).
  { intros n H1 H2. subst ns.
    rewrite list_lookup_insert_ne by congruence.
    now rewrite list_lookup_insert_ne by congruence. }
  (* the parent of an object other than the child is what it was *)
  assert (Hparent : ∀ n cn, n ≠ child → nodes h !! n = Some cn →
                    ∃ cn', ns !! n = Some cn' ∧ parent cn' = parent cn).
  { intros n cn Hn Hcn. destruct (decide (n = self)) as [->|Hns].
    - rewrite Hs in Hcn. inversion Hcn; subst cn. eauto.
    - rewrite Hother by assumption. eauto. }
  split; cbn [nodes].
  - intros p c (cp' & Hcp' & Hin). cbn [nodes] in Hcp'. fold ns in Hcp'.
    destruct (decide (p = self)) as [->|Hps].
    + rewrite Hself in Hcp'. inversion Hcp'; subst cp'. cbn in Hin.
      apply elem_of_app in Hin as [Hin|Hin].
      * destruct (Hinv self c) as (c0 & Hc0 & Hp0); [exists cs; auto|].
        destruct (decide (c = child)) as [->|Hcc]; [fold ns; eauto|].
        destruct (Hparent c c0 Hcc Hc0) as (c' & Hc' & Hp').
        exists c'. fold ns. split; [exact Hc'|congruence].
      * apply list_elem_of_singleton in Hin as ->. fold ns. eauto.
    + assert (∃ cp, nodes h !! p = Some cp ∧ children cp' = children cp)
        as (cp & Hcp & Hch).
      { destruct (decide (p = child)) as [->|Hpc].
        - rewrite Hchild in Hcp'. inversion Hcp'; subst cp'. eauto.
        - rewrite Hother in Hcp' by assumption. eauto. }
      rewrite Hch in Hin.
      assert (Hcc : c ≠ child).
      { intros ->. exact (Hfresh p cp Hps Hcp Hin). }
      destruct (Hinv p c) as (c0 & Hc0 & Hp0); [exists cp; auto|].
      destruct (Hparent c c0 Hcc Hc0) as (c' & Hc' & Hp').
      exists c'. fold ns. split; [exact Hc'|congruence].
  - exists (with_children (children cs ++ [child]) cs).
    split; [exact Hself|]. cbn. apply elem_of_app. right.
    apply list_elem_of_here.
Qed.

Lemma get_path_pure :
  ∀ fuel n (h : Heap F) r h',
    get_path fuel n h = Some (r, h') → h' = h.
Proof.
  induction fuel as [|fuel IH]; intros n h r h' Hrun; [discriminate|].
  cbn in Hrun. rewrite bind_run in Hrun. unfold get_node in Hrun.
  destruct (nodes h !! n) as [c|]; [|discriminate].
  destruct (parent c) as [p|]; [|now inversion Hrun].
  rewrite bind_run in Hrun.
  destruct (get_path fuel p h) as [[pp h1]|] eqn:E; [|discriminate].
  apply IH in E as ->. now inversion Hrun.
Qed.

(** X7. [add_child] composes with [get_path]: when [child] is neither the
    new parent nor one of its ancestors, then after
    [parent.add_child(child)] the path of the parent is what it was and the
    path of the child is that path, a slash, and the child's name. *)
Theorem get_path_after_add_child
  (h : Heap F) (p c : ref) cp cc fuel path :
  nodes h !! p = Some cp →
  nodes h !! c = Some cc →
  ¬ rtc (parent_of h) p c →
  get_path fuel p h = Some (path, h) →
  ∃ h',
    add_child p c h = Some (tt, h') ∧
    get_path fuel p h' = Some (path, h') ∧
    get_path (S fuel) c h' = Some (path +:+ "/" +:+ name cc, h').
Proof.
  intros Hp Hc Hanc Hpath.
  assert (Hne : p ≠ c) by (intros ->; apply Hanc, rtc_refl).
  assert (Lp : p < length (nodes h)) by (eapply lookup_lt_Some; eauto).
  assert (Lc : c < length (nodes h)) by (eapply lookup_lt_Some; eauto).
  eexists. split; [now apply (add_child_run h p c cp cc)|].
  set (h' := {| nodes := <[p := with_children (children cp ++ [c]) cp]>
                           (<[c := with_parent (Some p) cc]> (nodes h));
                signals := signals h |}).
  assert (Hstable : ∀ fuel m r,
            ¬ rtc (parent_of h) m c →
            get_path fuel m h = Some (r, h) →
            get_path fuel m h' = Some (r, h')).
  { clear fuel path Hpath.
    induction fuel as [|fuel IH]; intros m r Hm Hrun; [discriminate|].
    assert (Hmc : m ≠ c) by (intros ->; apply Hm, rtc_refl).
    cbn in Hrun |- *. rewrite bind_run in Hrun |- *.
    unfold get_node in Hrun |- *.
    destruct (nodes h !! m) as [cm|] eqn:Hcm; [|discriminate].
    assert (∃ cm', nodes h' !! m = Some cm' ∧ parent cm' = parent cm ∧
                   name cm' = name cm) as (cm' & -> & Hpar & Hnm).
    { subst h'. cbn. destruct (decide (m = p)) as [->|Hmp].
      - rewrite list_lookup_insert_eq by now rewrite length_insert.
        rewrite Hp in Hcm. inversion Hcm; subst. eauto.
      - rewrite list_lookup_insert_ne by congruence.
        rewrite list_lookup_insert_ne by congruence. eauto. }
    rewrite Hpar, Hnm.
    destruct (parent cm) as [q|] eqn:Hq.
    - rewrite bind_run in Hrun |- *.
      destruct (get_path fuel q h) as [[pp h1]|] eqn:E; [|discriminate].
      pose proof (get_path_pure _ _ _ _ _ E) as ->.
      rewrite (IH q pp); [now inversion Hrun| |exact E].
      intros Hqc. apply Hm. eapply rtc_l; [|exact Hqc]. exists cm. auto.
    - now inversion Hrun. }
  split; [now apply Hstable|].
  cbn [get_path]. rewrite bind_run. unfold get_node.
  assert (Hc' : nodes h' !! c = Some (with_parent (Some p) cc)).
  { subst h'. cbn. rewrite list_lookup_insert_ne by exact Hne.
    now apply list_lookup_insert_eq. }
  rewrite Hc'. cbn [parent with_parent]. rewrite bind_run.
  rewrite (Hstable fuel p path Hanc Hpath). reflexivity.
Qed.

End AddChild.

Section AddChildSelf.
Context {F : Type} `{Arith F}.

(** A search below an object that is its own child never reports that the
    name is absent. *)
Lemma find_component_self_child (h : Heap F) (a : ref) ca (nm : string) :
  nodes h !! a = Some ca →
  a ∈ children ca →
  ∀ fuel h', find_component fuel a nm h ≠ Some (None, h').
Proof.
  intros Ha Hin.
  induction fuel as [|fuel IH]; intros h' Hrun; [discriminate|].
  cbn in Hrun. rewrite bind_run in Hrun. unfold get_node in Hrun.
  rewrite Ha in Hrun.
  destruct (String.eqb (name ca) nm); [discriminate|].
  revert Hin Hrun. generalize (children ca).
  induction l as [|child cs IHcs]; intros Hin Hrun; [inversion Hin|].
  rewrite bind_run in Hrun.
  destruct (find_component fuel child nm h) as [[r1 h1]|] eqn:E;
    [|discriminate].
  destruct (find_component_meaning _ _ _ _ _ _ E) as [-> _].
  destruct r1 as [r|]; [discriminate|].
  apply elem_of_cons in Hin as [<-|Hin].
  - exact (IH h E).
  - exact (IHcs Hin Hrun).
Qed.

(** X8. [add_child] makes no check on its argument: [a.add_child(a)] makes
    [a] its own parent and its own child.  From then on [get_path] on [a]
    never returns, whatever the recursion depth allowed, and a search from
    [a] for a name that no object carries never returns either. *)
Theorem add_child_self_makes_cycle (h : Heap F) (a : ref) ca (nm : string) :
  nodes h !! a = Some ca →
  ∃ h' ca',
    add_child a a h = Some (tt, h') ∧
    nodes h' !! a = Some ca' ∧
    parent ca' = Some a ∧
    children ca' = children ca ++ [a] ∧
    (∀ fuel, get_path fuel a h' = None) ∧
    ((∀ m c, nodes h' !! m = Some c → name c ≠ nm) →
     ∀ fuel, find_component fuel a nm h' = None).
Proof.
  intros Ha.
  assert (La : a < length (nodes h)) by (eapply lookup_lt_Some; eauto).
  set (ca' := with_children (children ca ++ [a]) (with_parent (Some a) ca)).
  set (h' := {| nodes := <[a := ca']> (nodes h); signals := signals h |}).
  assert (Ha' : nodes h' !! a = Some ca')
    by (cbn; now apply list_lookup_insert_eq).
  exists h', ca'.
  split.
  { unfold add_child, bind, update_node. rewrite Ha. cbn.
    rewrite list_lookup_insert_eq by exact La.
    now rewrite list_insert_insert_eq. }
  split; [exact Ha'|]. split; [reflexivity|]. split; [reflexivity|].
  split.
  - induction fuel as [|fuel IH]; [reflexivity|].
    cbn [get_path]. rewrite bind_run. unfold get_node. rewrite Ha'.
    cbn [parent ca' with_children with_parent]. rewrite bind_run.
    now rewrite IH.
  - intros Hnames fuel.
    destruct (find_component fuel a nm h') as [[res h'']|] eqn:E;
      [|reflexivity].
    exfalso. destruct res as [r|].
    + destruct (find_component_meaning _ _ _ _ _ _ E)
        as (_ & _ & c & Hc & Hnm).
      exact (Hnames r c Hc Hnm).
    + apply (find_component_self_child h' a ca' nm Ha') in E; [exact E|].
      cbn. apply elem_of_app. right. apply list_elem_of_here.
Qed.

End AddChildSelf.

Lemma back_references_check_sound {F : Type} (h : Heap F) :
  back_references_check h = true → children_know_parent h.
Proof.
  unfold back_references_check. rewrite forallb_forall.
  intros Hall p c (cp & Hcp & Hc).
  assert (Hin : In (p, cp) (imap pair (nodes h))).
  { apply list_elem_of_In. apply elem_of_lookup_imap. eauto. }
  specialize (Hall _ Hin). cbn [fst snd] in Hall.
  rewrite forallb_forall in Hall.
  specialize (Hall c (proj1 (list_elem_of_In _ _) Hc)).
  destruct (nodes h !! c) as [cc|]; [|discriminate Hall].
  destruct (parent cc) as [q|] eqn:Hq; [|discriminate Hall].
  apply Nat.eqb_eq in Hall. subst q. exists cc. split; [reflexivity|].
  exact Hq.
Qed.

Lemma listed_nowhere_sound {F : Type} (child : ref) (h : Heap F) :
  listed_nowhere child h = true →
  ∀ q cq, nodes h !! q = Some cq → child ∉ children cq.
Proof.
  unfold listed_nowhere. rewrite forallb_forall.
  intros Hall q cq Hq Hin.
  specialize (Hall cq (proj1 (list_elem_of_In _ _)
                         (list_elem_of_lookup_2 _ _ _ Hq))).
  rewrite forallb_forall in Hall.
  specialize (Hall child (proj1 (list_elem_of_In _ _) Hin)).
  now rewrite Nat.eqb_refl in Hall.
Qed.

Lemma add_child_keeps_back_references_witness :
  child_of (brain_built_heap (F := float)) 0 1 ∧
  child_of (brain_built_heap (F := float)) 2 3 ∧
  ∃ h',
    add_child 1 2 (brain_built_heap (F := float)) = Some (tt, h') ∧
    children_know_parent h' ∧
    child_of h' 1 2.
Proof.
  assert (Hback : back_references_check (brain_built_heap (F := float))
                  = true) by (vm_compute; reflexivity).
  assert (Hfree : listed_nowhere 2 (brain_built_heap (F := float)) = true)
    by (vm_compute; reflexivity).
  destruct (nodes (brain_built_heap (F := float)) !! 0) as [c0|] eqn:H0;
    [|vm_compute in H0; discriminate H0].
  destruct (nodes (brain_built_heap (F := float)) !! 1) as [c1|] eqn:H1;
    [|vm_compute in H1; discriminate H1].
  destruct (nodes (brain_built_heap (F := float)) !! 2) as [c2|] eqn:H2;
    [|vm_compute in H2; discriminate H2].
  split; [|split].
  - exists c0. split; [exact H0|].
    assert (E : children c0 = [1])
      by (vm_compute in H0; injection H0 as <-; reflexivity).
    rewrite E. apply list_elem_of_here.
  - exists c2. split; [exact H2|].
    assert (E : head (children c2) = Some 3)
      by (vm_compute in H2; injection H2 as <-; reflexivity).
    destruct (children c2) as [|k ks]; [discriminate E|].
    injection E as ->. apply list_elem_of_here.
  - apply (add_child_keeps_back_references (F := float) brain_built_heap 1 2
             c1 c2 ltac:(lia) H1 H2).
    + now apply back_references_check_sound.
    + intros q cq _ Hq. now apply (listed_nowhere_sound 2 _ Hfree q cq).
Defined.

Lemma get_path_after_add_child_witness :
  ∃ h',
    add_child 0 1 (example_heap (F := float)) = Some (tt, h') ∧
    get_path 1 0 h' = Some ("Brain", h') ∧
    get_path 2 1 h' = Some ("Brain/Cerebellum", h').
Proof.
  apply (get_path_after_add_child (F := float) example_heap 0 1 _ _ 1
           "Brain" eq_refl eq_refl); [|reflexivity].
  intros Hreach. apply rtc_inv in Hreach as [Heq|(y & (c & Hc & Hp) & _)].
  - discriminate.
  - cbn in Hc. inversion Hc; subst. discriminate.
Defined.

Lemma add_child_self_makes_cycle_witness :
  ∃ h' ca',
    add_child 0 0 (example_heap (F := float)) = Some (tt, h') ∧
    nodes h' !! 0 = Some ca' ∧
    parent ca' = Some 0 ∧
    children ca' = [0] ∧
    get_path 1000 0 h' = None.
Proof.
  destruct (add_child_self_makes_cycle (F := float) example_heap 0 _ "x"
              eq_refl)
    as (h' & ca' & Hrun & Ha & Hp & Hch & Hpath & _).
  exists h', ca'. repeat split; try assumption. apply Hpath.
Defined.

(** ** [print_hierarchy] and the order of the search *)

Section PrintHierarchyProps.
Context {F : Type} `{Arith F}.

Lemma print_hierarchy_S (fuel : nat) (component : ref) (indent : nat)
  (h : Heap F) :
  print_hierarchy (S fuel) component indent h =
    bind (get_node component) (λ c,
      bind (for_each (children c)
              (λ child, print_hierarchy fuel child (indent + 1)))
           (λ below,
              ret ((component, hierarchy_line indent (name c)) :: below))) h.
Proof. reflexivity. Qed.

(** What a returned listing means. *)
Lemma print_hierarchy_meaning :
  ∀ fuel root indent (h : Heap F) out h',
    print_hierarchy fuel root indent h = Some (out, h') →
    h' = h ∧
    (∀ r line, (r, line) ∈ out →
       ∃ c d, nodes h !! r = Some c ∧ nsteps (child_of h) d root r ∧
              line = hierarchy_line (indent + d) (name c)) ∧
    (∀ m, rtc (child_of h) root m → m ∈ out.*1).
Proof.
  induction fuel as [|fuel IH]; intros root indent h out h' Hrun;
    [discriminate|].
  rewrite print_hierarchy_S, bind_run in Hrun.
  destruct (get_node root h) as [[c h0]|] eqn:Hget; [|discriminate].
  apply get_node_inv in Hget as [-> Hc].
  rewrite bind_run in Hrun.
  destruct (for_each (children c)
              (λ child, print_hierarchy fuel child (indent + 1)) h)
    as [[below h1]|] eqn:Hloop; [|discriminate].
  inversion Hrun; subst out h'. clear Hrun.
  assert (Hbelow : ∀ cs below h1,
    for_each cs (λ child, print_hierarchy fuel child (indent + 1)) h
      = Some (below, h1) →
    h1 = h ∧
    (∀ r line, (r, line) ∈ below →
       ∃ k c d, k ∈ cs ∧ nodes h !! r = Some c ∧
                nsteps (child_of h) d k r ∧
                line = hierarchy_line (indent + 1 + d) (name c)) ∧
    (∀ k m, k ∈ cs → rtc (child_of h) k m → m ∈ below.*1)).
  { clear below h1 Hloop.
    induction cs as [|child cs IHcs]; intros below h1 Hl.
    - inversion Hl; subst. split; [reflexivity|]. split.
      + intros r line Hin. inversion Hin.
      + intros k m Hk. inversion Hk.
    - cbn [for_each] in Hl. rewrite bind_run in Hl.
      destruct (print_hierarchy fuel child (indent + 1) h)
        as [[ys h2]|] eqn:E1; [|discriminate].
      destruct (IH _ _ _ _ _ E1) as (-> & Hys & Hreach).
      rewrite bind_run in Hl.
      destruct (for_each cs
                  (λ child, print_hierarchy fuel child (indent + 1)) h)
        as [[zs h3]|] eqn:E2; [|discriminate].
      destruct (IHcs _ _ eq_refl) as (-> & Hzs & Hreach').
      inversion Hl; subst. split; [reflexivity|]. split.
      + intros r line Hin. apply elem_of_app in Hin as [Hin|Hin].
        * destruct (Hys _ _ Hin) as (cr & d & Hcr & Hd & Hline).
          exists child, cr, d. split; [apply list_elem_of_here|]. auto.
        * destruct (Hzs _ _ Hin) as (k & cr & d & Hk & Hrest).
          exists k, cr, d. split; [now apply list_elem_of_further|].
          exact Hrest.
      + intros k m Hk Hkm. rewrite fmap_app. apply elem_of_app.
        apply elem_of_cons in Hk as [->|Hk].
        * left. now apply Hreach.
        * right. eapply Hreach'; eauto. }
  destruct (Hbelow _ _ _ Hloop) as (-> & Hlines & Hreach).
  split; [reflexivity|]. split.
  - intros r line Hin. apply elem_of_cons in Hin as [Heq|Hin].
    + inversion Heq; subst. exists c, 0. split; [exact Hc|].
      split; [constructor|]. now rewrite Nat.add_0_r.
    + destruct (Hlines _ _ Hin) as (k & cr & d & Hk & Hcr & Hd & ->).
      exists cr, (S d). split; [exact Hcr|]. split.
      * eapply nsteps_l; [|exact Hd]. exists c. split; assumption.
      * f_equal. lia.
  - intros m Hm. rewrite fmap_cons. cbn [fst].
    apply rtc_inv in Hm as [->|(k & (cp & Hcp & Hk) & Hkm)].
    + apply list_elem_of_here.
    + apply list_elem_of_further. rewrite Hc in Hcp.
      inversion Hcp; subst cp. eapply Hreach; eauto.
Qed.

(** Along children lists without cycle the listing ends before the fuel
    does. *)
Lemma print_hierarchy_total (h : Heap F) (start : ref) :
  children_allocated h →
  acyclic_from (child_of h) start →
  ∀ fuel visited n indent,
    on_walk (child_of h) (length (nodes h)) start visited n →
    length (nodes h) ≤ fuel + length visited →
    ∃ out, print_hierarchy fuel n indent h = Some (out, h).
Proof.
  intros Halloc Hacyc.
  induction fuel as [|fuel IH]; intros visited n indent Hwalk Hfuel.
  { apply on_walk_length in Hwalk. lia. }
  pose proof Hwalk as (_ & Hn & _).
  destruct (lookup_lt_is_Some_2 _ _ Hn) as [c Hc].
  rewrite print_hierarchy_S, bind_run. unfold get_node. rewrite Hc.
  assert (Hloop : ∀ cs, (∀ k, k ∈ cs → k ∈ children c) →
    ∃ below,
      for_each cs (λ child, print_hierarchy fuel child (indent + 1)) h
        = Some (below, h)).
  { induction cs as [|child cs IHcs]; intros Hsub; [eexists; reflexivity|].
    cbn [for_each]. rewrite bind_run.
    destruct (IH (n :: visited) child (indent + 1)) as (ys & Hys).
    - apply on_walk_step; try assumption.
      exists c. split; [exact Hc|]. apply Hsub. apply list_elem_of_here.
    - cbn. lia.
    - rewrite Hys, bind_run.
      destruct IHcs as (zs & Hzs).
      + intros k Hk. apply Hsub. now apply list_elem_of_further.
      + rewrite Hzs. eexists; reflexivity. }
  destruct (Hloop (children c)) as (below & Hbelow); [auto|].
  rewrite bind_run, Hbelow. eexists; reflexivity.
Qed.

(** X11. On a heap whose children lists point to live objects and form no
    cycle below the root, [print_hierarchy] returns for every fuel from the
    number of objects on and changes nothing.  Every line it prints is the
    name of an object that a chain of [d] children entries links to the
    root, behind [indent + d] indentation units; and every object that can
    be reached from the root is printed. *)
Theorem print_hierarchy_prints_tree
  (h : Heap F) (root : ref) (indent fuel : nat) :
  root < length (nodes h) →
  children_allocated h →
  acyclic_from (child_of h) root →
  length (nodes h) ≤ fuel →
  ∃ out,
    print_hierarchy fuel root indent h = Some (out, h) ∧
    (∀ r line, (r, line) ∈ out →
       ∃ c d, nodes h !! r = Some c ∧ nsteps (child_of h) d root r ∧
              line = hierarchy_line (indent + d) (name c)) ∧
    (∀ m, rtc (child_of h) root m → m ∈ out.*1).
Proof.
  intros Hroot Halloc Hacyc Hfuel.
  destruct (print_hierarchy_total h root Halloc Hacyc fuel [] root indent)
    as (out & Hout).
  - now apply on_walk_start.
  - cbn. lia.
  - exists out. split; [exact Hout|].
    exact (proj2 (print_hierarchy_meaning _ _ _ _ _ _ Hout)).
Qed.

Lemma head_filter_app {A} (f : A → bool) (xs ys : list A) :
  head (List.filter f (xs ++ ys)) =
    match head (List.filter f xs) with
    | Some x => Some x
    | None => head (List.filter f ys)
    end.
Proof.
  rewrite List.filter_app. now destruct (List.filter f xs).
Qed.

(** X12. [find_component] searches in the order in which [print_hierarchy]
    prints: whenever the listing of a root returns, the search from the same
    root with the same fuel returns too, and its result is the first printed
    object that has the name asked for, or [None] when no printed object has
    it. *)
Theorem find_component_first_printed
  (fuel : nat) (root : ref) (indent : nat) (nm : string) (h : Heap F)
  out h' :
  print_hierarchy fuel root indent h = Some (out, h') →
  find_component fuel root nm h =
    Some (head (List.filter (has_name h nm) out.*1), h).
Proof.
  revert root indent out h'.
  induction fuel as [|fuel IH]; intros root indent out h' Hrun;
    [discriminate|].
  rewrite print_hierarchy_S, bind_run in Hrun.
  destruct (get_node root h) as [[c h0]|] eqn:Hget; [|discriminate].
  apply get_node_inv in Hget as [-> Hc].
  rewrite bind_run in Hrun.
  destruct (for_each (children c)
              (λ child, print_hierarchy fuel child (indent + 1)) h)
    as [[below h1]|] eqn:Hloop; [|discriminate].
  inversion Hrun; subst out h'. clear Hrun.
  cbn [find_component]. rewrite bind_run. unfold get_node at 1. rewrite Hc.
  rewrite fmap_cons. cbn [fst List.filter].
  unfold has_name at 1. rewrite Hc.
  destruct (String.eqb (name c) nm); [reflexivity|].
  revert below h1 Hloop. generalize (children c).
  induction l as [|child cs IHcs]; intros below h1 Hl.
  - inversion Hl; subst. reflexivity.
  - cbn [for_each] in Hl. rewrite bind_run in Hl.
    destruct (print_hierarchy fuel child (indent + 1) h)
      as [[ys h2]|] eqn:E1; [|discriminate].
    pose proof (proj1 (print_hierarchy_meaning _ _ _ _ _ _ E1)) as ->.
    rewrite bind_run in Hl.
    destruct (for_each cs
                (λ child, print_hierarchy fuel child (indent + 1)) h)
      as [[zs h3]|] eqn:E2; [|discriminate].
    inversion Hl; subst below h1. clear Hl.
    rewrite bind_run, (IH _ _ _ _ E1).
    rewrite fmap_app, head_filter_app.
    destruct (head (List.filter (has_name h nm) ys.*1)); [reflexivity|].
    exact (IHcs _ _ eq_refl).
Qed.

End PrintHierarchyProps.

Lemma print_hierarchy_prints_tree_witness :
  ∃ out,
    print_hierarchy 69 (built_root (F := float)) 0
      (built_heap (F := float)) = Some (out, built_heap) ∧
    length out = 69 ∧
    out !! 2 = Some (2, hierarchy_line 2 "Brain").
Proof.
  assert (Hchk : targets_after children (built_heap (F := float)) = true)
    by (vm_compute; reflexivity).
  destruct (children_after_sound _ Hchk) as [Halloc Hacyc].
  assert (Hlen : length (nodes (built_heap (F := float))) = 69)
    by (vm_compute; reflexivity).
  destruct (print_hierarchy_prints_tree (built_heap (F := float))
              (built_root (F := float)) 0 69)
    as (out & Hout & _).
  - rewrite Hlen. vm_compute. lia.
  - exact Halloc.
  - now apply acyclic_acyclic_from.
  - rewrite Hlen. lia.
  - exists out. split; [exact Hout|].
    vm_compute in Hout. inversion Hout. split; reflexivity.
Defined.

Lemma find_component_first_printed_witness :
  ∃ out,
    print_hierarchy 7 (built_root (F := float)) 0
      (built_heap (F := float)) = Some (out, built_heap) ∧
    find_component 7 (built_root (F := float)) "Hippocampus"
      (built_heap (F := float)) =
      Some (head (List.filter
                    (has_name (built_heap (F := float)) "Hippocampus")
                    out.*1),
            built_heap).
Proof.
  destruct (print_hierarchy 7 (built_root (F := float)) 0
              (built_heap (F := float))) as [[out h']|] eqn:E;
    [|vm_compute in E; discriminate].
  pose proof (proj1 (print_hierarchy_meaning _ _ _ _ _ _ E)) as ->.
  exists out. split; [reflexivity|].
  exact (find_component_first_printed 7 (built_root (F := float)) 0
           "Hippocampus" (built_heap (F := float)) out _ E).
Defined.

(** ** The shape of the system [build_complete_system] returns *)

Section BuiltSystem.
Context {F : Type} `{Arith F}.

Lemma tree_check_sound (root : ref) (h : Heap F) :
  tree_check root h = true →
  ∀ n c, nodes h !! n = Some c →
    match parent c with
    | None => n = root
    | Some p =>
        p < n ∧
        ∃ cp, nodes h !! p = Some cp ∧
              count_occ Nat.eq_dec (children cp) n = 1
    end ∧
    (∀ k, k ∈ children c →
          ∃ ck, nodes h !! k = Some ck ∧ parent ck = Some n) ∧
    connections c = [] ∧
    active c = true.
Proof.
  unfold tree_check. rewrite forallb_forall. intros Hall n c Hc.
  assert (Hin : In (n, c) (imap pair (nodes h))).
  { apply list_elem_of_In. apply elem_of_lookup_imap. eauto. }
  specialize (Hall _ Hin). cbn [fst snd] in Hall.
  apply andb_prop in Hall as [Hall Hact].
  apply andb_prop in Hall as [Hall Hconn].
  apply andb_prop in Hall as [Hpar Hkids].
  split; [|split; [|split]].
  - destruct (parent c) as [p|].
    + apply andb_prop in Hpar as [Hlt Hcount].
      apply Nat.ltb_lt in Hlt. split; [exact Hlt|].
      destruct (nodes h !! p) as [cp|]; [|discriminate].
      apply Nat.eqb_eq in Hcount. exists cp. split; [reflexivity|exact Hcount].
    + now apply Nat.eqb_eq in Hpar.
  - rewrite forallb_forall in Hkids. intros k Hk.
    specialize (Hkids k (proj1 (list_elem_of_In _ _) Hk)).
    destruct (nodes h !! k) as [ck|]; [|discriminate].
    destruct (parent ck) as [q|] eqn:Hq; [|discriminate].
    apply Nat.eqb_eq in Hkids. subst q. exists ck. split; [reflexivity|].
    exact Hq.
  - now destruct (connections c).
  - exact Hact.
Qed.

(** Every object of a heap that passes the test hangs below the root. *)
Lemma tree_check_reach (root : ref) (h : Heap F) :
  tree_check root h = true →
  ∀ n c, nodes h !! n = Some c → rtc (child_of h) root n.
Proof.
  intros Hchk n. induction n as [n IH] using lt_wf_ind. intros c Hc.
  destruct (tree_check_sound root h Hchk n c Hc) as (Hpar & _).
  destruct (parent c) as [p|].
  - destruct Hpar as (Hlt & cp & Hcp & Hcount).
    eapply rtc_r; [exact (IH p Hlt cp Hcp)|].
    exists cp. split; [exact Hcp|].
    apply list_elem_of_In. apply (count_occ_In Nat.eq_dec). lia.
  - subst n. apply rtc_refl.
Qed.

Lemma built_heap_checked :
  tree_check (built_root (F := F)) (built_heap (F := F)) = true.
Proof. vm_compute. reflexivity. Qed.

(** X13. Whatever the arithmetic, the objects [build_complete_system]
    leaves on the heap form one tree below the root it returns: an object
    without parent is the root; any other object has a parent that was
    created before it, lists it exactly once, and links it to the root; every
    entry of its children list points back to it; it has no connection and
    its flag is on. *)
Theorem built_system_is_tree (n : ref) (c : Component F) :
  nodes (built_heap (F := F)) !! n = Some c →
  rtc (child_of (built_heap (F := F))) (built_root (F := F)) n ∧
  match parent c with
  | None => n = built_root (F := F)
  | Some p =>
      p < n ∧
      ∃ cp, nodes (built_heap (F := F)) !! p = Some cp ∧
            count_occ Nat.eq_dec (children cp) n = 1
  end ∧
  (∀ k, k ∈ children c →
        ∃ ck, nodes (built_heap (F := F)) !! k = Some ck ∧
              parent ck = Some n) ∧
  connections c = [] ∧
  active c = true.
Proof.
  intros Hc. split.
  - exact (tree_check_reach _ _ built_heap_checked n c Hc).
  - exact (tree_check_sound _ _ built_heap_checked n c Hc).
Qed.

(** X14. The builder never calls [add_connection], so in the system it
    returns [send_signal] from any component, with any signal and any fuel
    but zero, calls no [process_signal] and changes nothing. *)
Theorem built_system_delivers_nothing
  (n : ref) (c : Component F) (signal : sref) (fuel : nat) :
  nodes (built_heap (F := F)) !! n = Some c →
  send_signal (S fuel) n signal (built_heap (F := F)) =
    Some ([], built_heap).
Proof.
  intros Hc. apply (send_signal_quiet built_heap n signal c fuel Hc).
  destruct (tree_check_sound _ _ built_heap_checked n c Hc)
    as (_ & _ & -> & _).
  constructor.
Qed.

End BuiltSystem.

Lemma built_system_is_tree_witness :
  ∃ c,
    nodes (built_heap (F := float)) !! 48 = Some c ∧
    rtc (child_of (built_heap (F := float))) (built_root (F := float)) 48 ∧
    (∃ p cp, parent c = Some p ∧ p < 48 ∧
             nodes (built_heap (F := float)) !! p = Some cp ∧
             count_occ Nat.eq_dec (children cp) 48 = 1) ∧
    connections c = [] ∧
    active c = true.
Proof.
  destruct (nodes (built_heap (F := float)) !! 48) as [c|] eqn:Hc;
    [|vm_compute in Hc; discriminate Hc].
  destruct (built_system_is_tree (F := float) 48 c Hc)
    as (Hreach & Hpar & _ & Hconn & Hact).
  exists c. split; [reflexivity|]. split; [exact Hreach|].
  split; [|split; [exact Hconn|exact Hact]].
  destruct (parent c) as [p|].
  - destruct Hpar as (Hlt & cp & Hcp & Hcount). exists p, cp.
    split; [reflexivity|]. split; [exact Hlt|].
    split; [exact Hcp|exact Hcount].
  - exfalso.
    assert (Hr : built_root (F := float) = 0) by (vm_compute; reflexivity).
    rewrite Hr in Hpar. discriminate Hpar.
Defined.

Lemma built_system_delivers_nothing_witness :
  send_signal 69 (built_root (F := float)) 0 (built_heap (F := float)) =
    Some ([], built_heap).
Proof.
  destruct (nodes (built_heap (F := float)) !! built_root (F := float))
    as [c|] eqn:Hc; [|vm_compute in Hc; discriminate Hc].
  exact (built_system_delivers_nothing (F := float) _ c 0 68 Hc).
Defined.
